(** * The result printer of yq (pkg/yqlib/printer.go)

    A shallow embedding of the output-format registry and of the stateful
    result printer, followed by the properties established about them.

    Go strings are byte strings and are embedded as [string]; byte slices
    are [list byte]; [uint] document indices are [N] and [int] file indices
    are [Z] (both are only ever compared, never computed with). *)

From Stdlib Require Import String Ascii List Bool ZArith NArith Arith Lia.
From Stdlib.Strings Require Import Byte.
Import ListNotations.
Local Open Scope string_scope.
Local Open Scope list_scope.

(** Go's [error] values are represented by their message. *)
Definition error := string.

(** What a Go call that returns [(A, error)] (or just [error], with
    [A := unit]) can do: return a value with a nil error, return a non-nil
    error, or panic. *)
Inductive result (A : Type) : Type :=
| Ok (a : A)
| Err (e : error)
| Panic.
Arguments Ok {A} a.
Arguments Err {A} e.
Arguments Panic {A}.

(* ===================================================================== *)
(** ** Output format registry *)
(* ===================================================================== *)

Module Registry.

(** The closures registered as [EncoderFactory]; the encoders they build
    live in other files, so a factory is identified by the constructor call
    it performs. *)
Inductive EncoderFactoryFunction : Type :=
| NewYamlEncoder_ConfiguredYamlPreferences
| NewJSONEncoder_ConfiguredJSONPreferences
| NewPropertiesEncoder_ConfiguredPropertiesPreferences
| NewCsvEncoder_ConfiguredCsvPreferences
| NewCsvEncoder_ConfiguredTsvPreferences
| NewXMLEncoder_ConfiguredXMLPreferences
| NewTomlEncoder
| NewShellVariablesEncoder
| NewLuaEncoder_ConfiguredLuaPreferences.

(** [type PrinterOutputFormat struct]; a nil factory is [None], a nil slice
    of names is the empty list. *)
Record PrinterOutputFormat : Type := {
  FormalName : string;
  Names : list string;
  EncoderFactory : option EncoderFactoryFunction
}.

(** The package-level variables hold pointers: two descriptors with the same
    field values are still different descriptors. A pointer is the name of
    the variable that holds it. *)
Inductive FormatRef : Type :=
| YamlOutputFormat
| JSONOutputFormat
| PropsOutputFormat
| CSVOutputFormat
| TSVOutputFormat
| XMLOutputFormat
| Base64OutputFormat
| UriOutputFormat
| ShOutputFormat
| TomlOutputFormat
| ShellVariablesOutputFormat
| LuaOutputFormat.

(** The value each pointer points to (lines 29-43). *)
Definition deref (f : FormatRef) : PrinterOutputFormat :=
  match f with
  | YamlOutputFormat =>
      {| FormalName := "yaml"; Names := ["y"; "yml"];
         EncoderFactory := Some NewYamlEncoder_ConfiguredYamlPreferences |}
  | JSONOutputFormat =>
      {| FormalName := "json"; Names := ["j"];
         EncoderFactory := Some NewJSONEncoder_ConfiguredJSONPreferences |}
  | PropsOutputFormat =>
      {| FormalName := "props"; Names := ["p"; "properties"];
         EncoderFactory := Some NewPropertiesEncoder_ConfiguredPropertiesPreferences |}
  | CSVOutputFormat =>
      {| FormalName := "csv"; Names := ["c"];
         EncoderFactory := Some NewCsvEncoder_ConfiguredCsvPreferences |}
  | TSVOutputFormat =>
      {| FormalName := "tsv"; Names := ["t"];
         EncoderFactory := Some NewCsvEncoder_ConfiguredTsvPreferences |}
  | XMLOutputFormat =>
      {| FormalName := "xml"; Names := ["x"];
         EncoderFactory := Some NewXMLEncoder_ConfiguredXMLPreferences |}
  | Base64OutputFormat => {| FormalName := ""; Names := []; EncoderFactory := None |}
  | UriOutputFormat => {| FormalName := ""; Names := []; EncoderFactory := None |}
  | ShOutputFormat => {| FormalName := ""; Names := []; EncoderFactory := None |}
  | TomlOutputFormat =>
      {| FormalName := "toml"; Names := []; EncoderFactory := Some NewTomlEncoder |}
  | ShellVariablesOutputFormat =>
      {| FormalName := "shell"; Names := ["s"; "sh"];
         EncoderFactory := Some NewShellVariablesEncoder |}
  | LuaOutputFormat =>
      {| FormalName := "lua"; Names := ["l"];
         EncoderFactory := Some NewLuaEncoder_ConfiguredLuaPreferences |}
  end.

Definition Formats : list FormatRef :=
  [ YamlOutputFormat;
    JSONOutputFormat;
    PropsOutputFormat;
    CSVOutputFormat;
    TSVOutputFormat;
    XMLOutputFormat;
    Base64OutputFormat;
    UriOutputFormat;
    ShOutputFormat;
    TomlOutputFormat;
    ShellVariablesOutputFormat;
    LuaOutputFormat ].

(** [func (f *PrinterOutputFormat) MatchesName(name string) bool] *)
Definition MatchesName (f : FormatRef) (name : string) : bool :=
  if String.eqb (FormalName (deref f)) name then true
  else existsb (fun n => String.eqb n name) (Names (deref f)).

(** [func (f *PrinterOutputFormat) GetConfiguredEncoder() Encoder]: calls
    the factory; calling a nil func value panics, which is [None] here. *)
Definition GetConfiguredEncoder (f : FormatRef) : option EncoderFactoryFunction :=
  EncoderFactory (deref f).

(** [func GetAvailableOutputFormatString() string]: the slice [formats]
    that the loop builds, then its [strings.Join]. *)
Definition availableFormats : list string :=
  fold_left
    (fun formats printerFormat =>
       let formats :=
         if negb (String.eqb (FormalName (deref printerFormat)) "")
         then formats ++ [FormalName (deref printerFormat)] else formats in
       if Nat.leb 1 (length (Names (deref printerFormat)))
       then formats ++ [hd "" (Names (deref printerFormat))] else formats)
    Formats [].

Definition GetAvailableOutputFormatString : string :=
  String.concat "|" availableFormats.

(** The message built by
    [fmt.Errorf("unknown format '%v' please use [%v]", format, ...)]. *)
Definition unknownFormat (format : string) : error :=
  ("unknown format '" ++ format ++ "' please use [" ++
   GetAvailableOutputFormatString ++ "]")%string.

(** [func OutputFormatFromString(format string)], returning a descriptor
    pointer or an error: the range loop returns at the first element that
    matches. *)
Definition OutputFormatFromString (format : string) : result FormatRef :=
  match find (fun printerFormat => MatchesName printerFormat format) Formats with
  | Some printerFormat => Ok printerFormat
  | None => Err (unknownFormat format)
  end.

End Registry.

(* ===================================================================== *)
(** ** Result printer *)
(* ===================================================================== *)

Module Printer.

(** [removeLastEOL]: the buffer is the list of its bytes, [Truncate k]
    keeps the first [k] of them. *)
Definition removeLastEOL (b : list byte) : list byte :=
  let data := b in
  let n := length data in
  if Nat.leb 2 n && Byte.eqb (nth (n - 2) data x00) x0d
                 && Byte.eqb (nth (n - 1) data x00) x0a
  then firstn (n - 2) b
  else if Nat.leb 1 n && (Byte.eqb (nth (n - 1) data x00) x0d
                          || Byte.eqb (nth (n - 1) data x00) x0a)
  then firstn (n - 1) b
  else b.

(** [regexp.MustCompile(`^\$yqDocSeparator\$`).MatchString(s)]: the
    pattern is an anchored literal, so it matches exactly the strings that
    start with the text [$yqDocSeparator$]. *)
Definition commentsStartWithSepExp_MatchString (s : string) : bool :=
  String.prefix "$yqDocSeparator$" s.

(** What a reader of NUL-separated output does with it: the records are the
    runs of bytes that end at each 0x00 byte, without that byte ([acc] holds
    the bytes of the record being read, last byte first); bytes after the
    last 0x00 are no record. *)
Fixpoint nulRecords (acc : list byte) (b : list byte) : list (list byte) :=
  match b with
  | [] => []
  | x :: b' =>
      if Byte.eqb x x00 then rev acc :: nulRecords [] b'
      else nulRecords (x :: acc) b'
  end.

(** The message of the only error the printer creates itself. *)
Definition nulCharError : error :=
  "Can't serialize value because it contains NUL char and you are using NUL separated output".

(** Modelled from the spec: the type [CandidateNode], which is declared in
    a file other than printer.go. The printer reads five attributes of a
    node (its tag, scalar value, leading content, document index and file
    index) and passes the node on to its collaborators; the rest of a node
    stays opaque.

    The collaborators (encoder, writer provider, sinks, tree navigator,
    appendix reader) are external and may keep state of their own: [World]
    is that state, and every call on a collaborator is a transformer of it.
    [Writer] is the type of the sinks handed out by the writer provider
    (pointers to [bufio.Writer]), [Reader] the type of appendix sources.
    [Writer_Write] and [Writer_Flush] are the methods of a sink, and
    [io_Copy] is [io.Copy] from a buffered appendix reader into a sink; a
    call that writes answers with the bytes it put on its destination and
    the error it returned. *)
Class Externals : Type := {
  CandidateNode : Type;
  Tag : CandidateNode -> string;
  Value : CandidateNode -> string;
  LeadingContent : CandidateNode -> string;
  GetDocument : CandidateNode -> N;
  GetFileIndex : CandidateNode -> Z;
  World : Type;
  Writer : Type;
  Reader : Type;
  Writer_Write : Writer -> list byte -> World -> option error * World;
  Writer_Flush : Writer -> World -> option error * World;
  io_Copy : Writer -> Reader -> World -> (list byte * option error) * World
}.

Section Printer.
Context `{Externals}.

(** The [io.Writer] an encoder method is given: a sink, or the printer's
    private [tempBuffer]. *)
Inductive dest : Type :=
| ToWriter (w : Writer)
| ToBuffer.

(** An encoder method answers with the bytes it wrote on its destination
    and the error it returned. *)
Definition emission : Type := (list byte * option error)%type.

(** Modelled from the spec: the interface [Encoder], declared in another
    file, with the four methods the printer calls. A method that is given
    an [io.Writer] is given its destination here, and answers with what it
    wrote there. *)
Record Encoder : Type := {
  Encode : dest -> CandidateNode -> World -> emission * World;
  PrintDocumentSeparator : dest -> World -> emission * World;
  PrintLeadingContent : dest -> string -> World -> emission * World;
  CanHandleAliases : bool
}.

(** Modelled from the spec: the interface [PrinterWriter], declared in
    another file: a sink for a node, or for the nil node ([None]). *)
Record PrinterWriter : Type := {
  GetWriter : option CandidateNode -> World -> result Writer * World
}.

(** Modelled from the spec: the interface [DataTreeNavigator], declared in
    another file, of which the printer uses [GetMatchingNodes] on the
    explode operation only: from a match list to the match list of the
    context it returns. *)
Record DataTreeNavigator : Type := {
  GetMatchingNodes_explodeOp :
    list CandidateNode -> World -> result (list CandidateNode) * World
}.

(** [type resultsPrinter struct] *)
Record resultsPrinter : Type := {
  encoder : Encoder;
  printerWriter : PrinterWriter;
  firstTimePrinting : bool;
  previousDocIndex : N;
  previousFileIndex : Z;
  printedMatches : bool;
  treeNavigator : DataTreeNavigator;
  appendixReader : option Reader;
  nulSepOutput : bool
}.

(** Every call the printer makes on a collaborator, with its arguments,
    the bytes it put on its destination and what it returned. *)
Inductive event : Type :=
| EvExplode (matchingNodes : list CandidateNode)
            (r : result (list CandidateNode))
| EvGetWriter (node : option CandidateNode) (r : result Writer)
| EvPrintDocumentSeparator (d : dest) (out : list byte) (err : option error)
| EvPrintLeadingContent (d : dest) (content : string) (out : list byte)
                        (err : option error)
| EvEncode (d : dest) (node : CandidateNode) (out : list byte)
           (err : option error)
| EvWrite (w : Writer) (data : list byte) (err : option error)
| EvFlush (w : Writer) (err : option error)
| EvCopy (w : Writer) (reader : Reader) (data : list byte)
         (err : option error).

(** *** The monad of the printer's methods

    A method reads and updates the receiver [p], changes the world through
    the collaborators, and logs the calls it made; an error or a panic ends
    it at once. *)
Definition M (A : Type) : Type :=
  resultsPrinter -> World -> result A * resultsPrinter * World * list event.

Definition ret {A} (a : A) : M A := fun p w => (Ok a, p, w, []).

Definition bind {A B} (m : M A) (k : A -> M B) : M B :=
  fun p w =>
    match m p w with
    | (Ok a, p1, w1, t1) =>
        match k a p1 w1 with
        | (r, p2, w2, t2) => (r, p2, w2, t1 ++ t2)
        end
    | (Err e, p1, w1, t1) => (Err e, p1, w1, t1)
    | (Panic, p1, w1, t1) => (Panic, p1, w1, t1)
    end.

Notation "x <- m ;; k" := (bind m (fun x => k))
  (at level 100, m at next level, right associativity).
Notation "m ;;; k" := (bind m (fun _ => k))
  (at level 100, right associativity).

Definition fail {A} (e : error) : M A := fun p w => (Err e, p, w, []).
Definition panic {A} : M A := fun p w => (Panic, p, w, []).
Definition this : M resultsPrinter := fun p w => (Ok p, p, w, []).
Definition assign (f : resultsPrinter -> resultsPrinter) : M unit :=
  fun p w => (Ok tt, f p, w, []).

(** A call that returns a value and an error. *)
Definition call {A} (ev : result A -> event) (op : World -> result A * World)
  : M A :=
  fun p w => let (r, w1) := op w in (r, p, w1, [ev r]).

(** A call that writes on a destination and returns an error; the bytes
    written are handed back to the caller, who owns [tempBuffer]. *)
Definition emit (ev : list byte -> option error -> event)
    (op : World -> emission * World) : M (list byte) :=
  fun p w =>
    match op w with
    | ((out, None), w1) => (Ok out, p, w1, [ev out None])
    | ((out, Some e), w1) => (Err e, p, w1, [ev out (Some e)])
    end.

(** A call that only returns an error. *)
Definition exec (ev : option error -> event)
    (op : World -> option error * World) : M unit :=
  fun p w =>
    match op w with
    | (None, w1) => (Ok tt, p, w1, [ev None])
    | (Some e, w1) => (Err e, p, w1, [ev (Some e)])
    end.

(** [for el := l.Front(); el != nil; el = el.Next() { body }] *)
Fixpoint forEach {A} (body : A -> M unit) (l : list A) : M unit :=
  match l with
  | [] => ret tt
  | el :: rest => body el ;;; forEach body rest
  end.

(** Field assignments. *)
Definition set_firstTime (doc : N) (file : Z) (p : resultsPrinter) :=
  {| encoder := encoder p; printerWriter := printerWriter p;
     firstTimePrinting := false;
     previousDocIndex := doc; previousFileIndex := file;
     printedMatches := printedMatches p; treeNavigator := treeNavigator p;
     appendixReader := appendixReader p; nulSepOutput := nulSepOutput p |}.

Definition set_previousDocIndex (doc : N) (p : resultsPrinter) :=
  {| encoder := encoder p; printerWriter := printerWriter p;
     firstTimePrinting := firstTimePrinting p;
     previousDocIndex := doc; previousFileIndex := previousFileIndex p;
     printedMatches := printedMatches p; treeNavigator := treeNavigator p;
     appendixReader := appendixReader p; nulSepOutput := nulSepOutput p |}.

Definition set_printedMatches (b : bool) (p : resultsPrinter) :=
  {| encoder := encoder p; printerWriter := printerWriter p;
     firstTimePrinting := firstTimePrinting p;
     previousDocIndex := previousDocIndex p;
     previousFileIndex := previousFileIndex p;
     printedMatches := b; treeNavigator := treeNavigator p;
     appendixReader := appendixReader p; nulSepOutput := nulSepOutput p |}.

(** [func NewPrinter(encoder Encoder, printerWriter PrinterWriter) Printer];
    [NewDataTreeNavigator()] is external and given here. The fields the
    literal leaves out have their zero values. *)
Definition NewPrinter (NewDataTreeNavigator : DataTreeNavigator)
    (encoder : Encoder) (printerWriter : PrinterWriter) : resultsPrinter :=
  {| encoder := encoder; printerWriter := printerWriter;
     firstTimePrinting := true;
     previousDocIndex := 0%N; previousFileIndex := 0%Z;
     printedMatches := false; treeNavigator := NewDataTreeNavigator;
     appendixReader := None; nulSepOutput := false |}.

(** [func (p *resultsPrinter) SetNulSepOutput(nulSepOutput bool)] *)
Definition SetNulSepOutput (nulSepOutput : bool) (p : resultsPrinter) :=
  {| encoder := encoder p; printerWriter := printerWriter p;
     firstTimePrinting := firstTimePrinting p;
     previousDocIndex := previousDocIndex p;
     previousFileIndex := previousFileIndex p;
     printedMatches := printedMatches p; treeNavigator := treeNavigator p;
     appendixReader := appendixReader p; nulSepOutput := nulSepOutput |}.

(** [func (p *resultsPrinter) SetAppendix(reader io.Reader)] *)
Definition SetAppendix (reader : option Reader) (p : resultsPrinter) :=
  {| encoder := encoder p; printerWriter := printerWriter p;
     firstTimePrinting := firstTimePrinting p;
     previousDocIndex := previousDocIndex p;
     previousFileIndex := previousFileIndex p;
     printedMatches := printedMatches p; treeNavigator := treeNavigator p;
     appendixReader := reader; nulSepOutput := nulSepOutput p |}.

(** [func (p *resultsPrinter) PrintedAnything() bool] *)
Definition PrintedAnything (p : resultsPrinter) : bool := printedMatches p.

(** [func (p *resultsPrinter) printNode(node *CandidateNode, writer io.Writer) error] *)
Definition printNode (node : CandidateNode) (writer : dest) : M (list byte) :=
  p <- this ;;
  assign (set_printedMatches
            (printedMatches p
             || (negb (Tag node =? "!!null")%string
                 && (negb (Tag node =? "!!bool")%string
                     || negb (Value node =? "false")%string)))) ;;;
  emit (EvEncode writer node) (Encode (encoder p) writer node).

(** The body of the loop of [PrintResults] (lines 178-229) for the element
    [mappedDoc]. *)
Definition printLoopBody (mappedDoc : CandidateNode) : M unit :=
  p <- this ;;
  writer <- call (EvGetWriter (Some mappedDoc))
                 (GetWriter (printerWriter p) (Some mappedDoc)) ;;
  let commentStartsWithSeparator :=
    commentsStartWithSepExp_MatchString (LeadingContent mappedDoc) in
  (if (negb (previousDocIndex p =? GetDocument mappedDoc)%N
       || negb (previousFileIndex p =? GetFileIndex mappedDoc)%Z)
      && negb commentStartsWithSeparator
   then
     emit (EvPrintDocumentSeparator (ToWriter writer))
          (PrintDocumentSeparator (encoder p) (ToWriter writer)) ;;;
     ret tt
   else ret tt) ;;;
  let destination := if nulSepOutput p then ToBuffer else ToWriter writer in
  leading <- emit (EvPrintLeadingContent destination (LeadingContent mappedDoc))
                  (PrintLeadingContent (encoder p) destination
                                       (LeadingContent mappedDoc)) ;;
  encoded <- printNode mappedDoc destination ;;
  (if nulSepOutput p then
     let tempBuffer := leading ++ encoded in
     let tempBufferBytes := removeLastEOL tempBuffer in
     if existsb (Byte.eqb x00) tempBufferBytes
     then fail nulCharError
     else
       exec (EvWrite writer tempBufferBytes)
            (Writer_Write writer tempBufferBytes) ;;;
       exec (EvWrite writer [x00]) (Writer_Write writer [x00])
   else ret tt) ;;;
  assign (set_previousDocIndex (GetDocument mappedDoc)) ;;;
  exec (EvFlush writer) (Writer_Flush writer).

(** Lines 159-167 of [PrintResults]: the match list the rest of the
    function works on. *)
Definition explodeIfNeeded (matchingNodes : list CandidateNode)
  : M (list CandidateNode) :=
  p <- this ;;
  if negb (CanHandleAliases (encoder p))
  then call (EvExplode matchingNodes)
            (GetMatchingNodes_explodeOp (treeNavigator p) matchingNodes)
  else ret matchingNodes.

(** Lines 169-174: [Front()] of an empty list is nil, and reading its
    [Value] panics. *)
Definition primeFirstTime (matchingNodes : list CandidateNode) : M unit :=
  p <- this ;;
  if firstTimePrinting p
  then
    match matchingNodes with
    | node :: _ => assign (set_firstTime (GetDocument node) (GetFileIndex node))
    | [] => panic
    end
  else ret tt.

(** Lines 232-248. *)
Definition pipeAppendix : M unit :=
  p <- this ;;
  match appendixReader p with
  | Some reader =>
      writer <- call (EvGetWriter None) (GetWriter (printerWriter p) None) ;;
      emit (EvCopy writer reader) (io_Copy writer reader) ;;;
      exec (EvFlush writer) (Writer_Flush writer)
  | None => ret tt
  end.

(** [func (p *resultsPrinter) PrintResults(matchingNodes *list.List) error] *)
Definition PrintResults (matchingNodes : list CandidateNode) : M unit :=
  if Nat.eqb (length matchingNodes) 0 then ret tt
  else
    matchingNodes <- explodeIfNeeded matchingNodes ;;
    primeFirstTime matchingNodes ;;;
    forEach printLoopBody matchingNodes ;;;
    pipeAppendix.

(** *** Reading the outcome of a run *)

Definition resultOf {A} (x : result A * resultsPrinter * World * list event)
  : result A := fst (fst (fst x)).
Definition printerOf {A} (x : result A * resultsPrinter * World * list event)
  : resultsPrinter := snd (fst (fst x)).
Definition worldOf {A} (x : result A * resultsPrinter * World * list event)
  : World := snd (fst x).
Definition logOf {A} (x : result A * resultsPrinter * World * list event)
  : list event := snd x.

(** *** Reading a log of calls *)

(** The sink a call put bytes on, and the bytes. *)
Definition sinkOutput (ev : event) : option (Writer * list byte) :=
  match ev with
  | EvPrintDocumentSeparator (ToWriter w) out _ => Some (w, out)
  | EvPrintLeadingContent (ToWriter w) _ out _ => Some (w, out)
  | EvEncode (ToWriter w) _ out _ => Some (w, out)
  | EvWrite w data _ => Some (w, data)
  | EvCopy w _ data _ => Some (w, data)
  | _ => None
  end.

(** Everything a log put on the sinks that [sel] selects, in order. *)
Fixpoint output (sel : Writer -> bool) (t : list event) : list byte :=
  match t with
  | [] => []
  | ev :: t' =>
      match sinkOutput ev with
      | Some (w, out) => if sel w then out ++ output sel t' else output sel t'
      | None => output sel t'
      end
  end.

Definition isSeparator (ev : event) : bool :=
  match ev with EvPrintDocumentSeparator _ _ _ => true | _ => false end.

Definition isExplode (ev : event) : bool :=
  match ev with EvExplode _ _ => true | _ => false end.

(** The number of times the encoder was asked for a document separator. *)
Definition separatorCount (t : list event) : nat :=
  length (filter isSeparator t).

(** The nodes for which a sink was asked, in order. *)
Fixpoint routedNodes (t : list event) : list CandidateNode :=
  match t with
  | [] => []
  | EvGetWriter (Some n) _ :: t' => n :: routedNodes t'
  | _ :: t' => routedNodes t'
  end.

(** The nodes on which [printNode] called the encoder, in order. *)
Fixpoint encodedNodes (t : list event) : list CandidateNode :=
  match t with
  | [] => []
  | EvEncode _ n _ _ :: t' => n :: encodedNodes t'
  | _ :: t' => encodedNodes t'
  end.

(** *** The outcomes of one turn of the loop

    The tests and updates the loop body makes, under names. *)

(** Line 189: does [mappedDoc] start a new separator boundary? *)
Definition startsBoundary (p : resultsPrinter) (mappedDoc : CandidateNode) : bool :=
  (negb (previousDocIndex p =? GetDocument mappedDoc)%N
   || negb (previousFileIndex p =? GetFileIndex mappedDoc)%Z)
  && negb (commentsStartWithSepExp_MatchString (LeadingContent mappedDoc)).

(** Lines 136-137: the node counts as printed. *)
Definition countsAsPrinted (node : CandidateNode) : bool :=
  negb (Tag node =? "!!null")%string
  && (negb (Tag node =? "!!bool")%string || negb (Value node =? "false")%string).

Definition marked (p : resultsPrinter) (node : CandidateNode) : resultsPrinter :=
  set_printedMatches (printedMatches p || countsAsPrinted node) p.

Definition destinationOf (p : resultsPrinter) (writer : Writer) : dest :=
  if nulSepOutput p then ToBuffer else ToWriter writer.

Definition hasNul (b : list byte) : bool := existsb (Byte.eqb x00) b.

(** The calls of one turn up to and including the encoding of the node:
    the sink is obtained, the separator is printed when [sep] holds its
    bytes, the leading content and the node are written on the
    destination, each without error but perhaps the last. *)
Definition separatorLog (writer : Writer) (sep : option (list byte)) : list event :=
  match sep with
  | Some out => [EvPrintDocumentSeparator (ToWriter writer) out None]
  | None => []
  end.

Definition encodingLog (p : resultsPrinter) (n : CandidateNode) (writer : Writer)
    (sep : option (list byte)) (leading encoded : list byte)
    (err : option error) : list event :=
  EvGetWriter (Some n) (Ok writer) :: separatorLog writer sep ++
  [EvPrintLeadingContent (destinationOf p writer) (LeadingContent n) leading None;
   EvEncode (destinationOf p writer) n encoded err].

(** The two writes of NUL-separated mode, when it is on. *)
Definition recordLog (p : resultsPrinter) (writer : Writer)
    (leading encoded : list byte) : list event :=
  if nulSepOutput p
  then [EvWrite writer (removeLastEOL (leading ++ encoded)) None;
        EvWrite writer [x00] None]
  else [].

Definition isSome {A} (o : option A) : bool :=
  match o with Some _ => true | None => false end.

(** [turn n p r p' t]: a turn of the loop on node [n] that starts with the
    printer in state [p] can return [r], leave the printer in state [p']
    and make the calls [t]. One rule for each place where the loop body
    returns. *)
Inductive turn (n : CandidateNode) (p : resultsPrinter)
  : result unit -> resultsPrinter -> list event -> Prop :=
| turn_getWriter_err e :
    turn n p (Err e) p [EvGetWriter (Some n) (Err e)]
| turn_getWriter_panic :
    turn n p Panic p [EvGetWriter (Some n) Panic]
| turn_separator_err writer out e :
    startsBoundary p n = true ->
    turn n p (Err e) p
      [EvGetWriter (Some n) (Ok writer);
       EvPrintDocumentSeparator (ToWriter writer) out (Some e)]
| turn_leading_err writer sep leading e :
    isSome sep = startsBoundary p n ->
    turn n p (Err e) p
      (EvGetWriter (Some n) (Ok writer) :: separatorLog writer sep ++
       [EvPrintLeadingContent (destinationOf p writer) (LeadingContent n)
                              leading (Some e)])
| turn_encode_err writer sep leading encoded e :
    isSome sep = startsBoundary p n ->
    turn n p (Err e) (marked p n)
      (encodingLog p n writer sep leading encoded (Some e))
| turn_nul writer sep leading encoded :
    isSome sep = startsBoundary p n ->
    nulSepOutput p = true ->
    hasNul (removeLastEOL (leading ++ encoded)) = true ->
    turn n p (Err nulCharError) (marked p n)
      (encodingLog p n writer sep leading encoded None)
| turn_write_err writer sep leading encoded e :
    isSome sep = startsBoundary p n ->
    nulSepOutput p = true ->
    hasNul (removeLastEOL (leading ++ encoded)) = false ->
    turn n p (Err e) (marked p n)
      (encodingLog p n writer sep leading encoded None ++
       [EvWrite writer (removeLastEOL (leading ++ encoded)) (Some e)])
| turn_write_nul_err writer sep leading encoded e :
    isSome sep = startsBoundary p n ->
    nulSepOutput p = true ->
    hasNul (removeLastEOL (leading ++ encoded)) = false ->
    turn n p (Err e) (marked p n)
      (encodingLog p n writer sep leading encoded None ++
       [EvWrite writer (removeLastEOL (leading ++ encoded)) None;
        EvWrite writer [x00] (Some e)])
| turn_flush writer sep leading encoded err :
    isSome sep = startsBoundary p n ->
    (nulSepOutput p = true ->
     hasNul (removeLastEOL (leading ++ encoded)) = false) ->
    turn n p (match err with None => Ok tt | Some e => Err e end)
      (set_previousDocIndex (GetDocument n) (marked p n))
      (encodingLog p n writer sep leading encoded None ++
       recordLog p writer leading encoded ++ [EvFlush writer err]).

(** [turns ms p r p' t]: the loop over [ms]; it goes on to the next node
    after a turn that returned no error, and returns what the first other
    turn returns. *)
Inductive turns : list CandidateNode -> resultsPrinter ->
                  result unit -> resultsPrinter -> list event -> Prop :=
| turns_done p : turns [] p (Ok tt) p []
| turns_next n ms p p1 t1 r p' t2 :
    turn n p (Ok tt) p1 t1 -> turns ms p1 r p' t2 ->
    turns (n :: ms) p r p' (t1 ++ t2)
| turns_stop n ms p r p' t :
    turn n p r p' t -> r <> Ok tt -> turns (n :: ms) p r p' t.

(** *** The outcomes of [PrintResults] *)

(** The call of the explode operation, made when the encoder cannot handle
    aliases, after which the loop walks [es]. *)
Definition explodeLog (p : resultsPrinter) (ms es : list CandidateNode)
  : list event :=
  if CanHandleAliases (encoder p) then [] else [EvExplode ms (Ok es)].

(** Lines 169-174: the state in which the loop over [es] starts. *)
Definition primed (p : resultsPrinter) (es : list CandidateNode) : resultsPrinter :=
  match es with
  | node :: _ =>
      if firstTimePrinting p
      then set_firstTime (GetDocument node) (GetFileIndex node) p
      else p
  | [] => p
  end.

(** Lines 233-248: the appendix, once the loop is over. *)
Inductive appendixRun (p : resultsPrinter) : result unit -> list event -> Prop :=
| appendix_none :
    appendixReader p = None -> appendixRun p (Ok tt) []
| appendix_getWriter_err reader e :
    appendixReader p = Some reader ->
    appendixRun p (Err e) [EvGetWriter None (Err e)]
| appendix_getWriter_panic reader :
    appendixReader p = Some reader ->
    appendixRun p Panic [EvGetWriter None Panic]
| appendix_copy_err reader writer data e :
    appendixReader p = Some reader ->
    appendixRun p (Err e)
      [EvGetWriter None (Ok writer); EvCopy writer reader data (Some e)]
| appendix_flush reader writer data err :
    appendixReader p = Some reader ->
    appendixRun p (match err with None => Ok tt | Some e => Err e end)
      [EvGetWriter None (Ok writer); EvCopy writer reader data None;
       EvFlush writer err].

(** The sequence [es] the loop walks when [PrintResults] is given [ms]:
    [ms] itself, or what the explode operation made of it. *)
Inductive walks (p : resultsPrinter) (w : World) (ms : list CandidateNode)
  : list CandidateNode -> Prop :=
| walks_same :
    CanHandleAliases (encoder p) = true -> walks p w ms ms
| walks_exploded es w1 :
    CanHandleAliases (encoder p) = false ->
    GetMatchingNodes_explodeOp (treeNavigator p) ms w = (Ok es, w1) ->
    walks p w ms es.

(** [printed ms p w r p' t]: a call [PrintResults ms] that starts with the
    printer in state [p] and the collaborators in state [w] can return [r],
    leave the printer in state [p'] and make the calls [t]. *)
Inductive printed (ms : list CandidateNode) (p : resultsPrinter) (w : World)
  : result unit -> resultsPrinter -> list event -> Prop :=
| printed_nothing :
    ms = [] -> printed ms p w (Ok tt) p []
| printed_explode_err e w1 :
    ms <> [] -> CanHandleAliases (encoder p) = false ->
    GetMatchingNodes_explodeOp (treeNavigator p) ms w = (Err e, w1) ->
    printed ms p w (Err e) p [EvExplode ms (Err e)]
| printed_explode_panic w1 :
    ms <> [] -> CanHandleAliases (encoder p) = false ->
    GetMatchingNodes_explodeOp (treeNavigator p) ms w = (Panic, w1) ->
    printed ms p w Panic p [EvExplode ms Panic]
| printed_front_panic w1 :
    ms <> [] -> CanHandleAliases (encoder p) = false ->
    GetMatchingNodes_explodeOp (treeNavigator p) ms w = (Ok [], w1) ->
    firstTimePrinting p = true ->
    printed ms p w Panic p [EvExplode ms (Ok [])]
| printed_loop_stop es r p' t :
    ms <> [] -> walks p w ms es ->
    (firstTimePrinting p = true -> es <> []) ->
    turns es (primed p es) r p' t -> r <> Ok tt ->
    printed ms p w r p' (explodeLog p ms es ++ t)
| printed_loop_done es p1 t r t' :
    ms <> [] -> walks p w ms es ->
    (firstTimePrinting p = true -> es <> []) ->
    turns es (primed p es) (Ok tt) p1 t ->
    appendixRun p1 r t' ->
    printed ms p w r p1 (explodeLog p ms es ++ t ++ t').

(** *** Records of NUL-separated output

    What one turn of the loop does in NUL-separated mode when it returns
    no error: the node, the sink obtained for it, the bytes of the document
    separator when the encoder was asked for one, and the bytes the encoder
    put in [tempBuffer] for the leading content and for the node. *)
Record frame : Type := {
  fNode : CandidateNode;
  fWriter : Writer;
  fSeparator : option (list byte);
  fLeading : list byte;
  fEncoded : list byte
}.

(** The record: the buffer, less one trailing line terminator. *)
Definition frameRecord (f : frame) : list byte :=
  removeLastEOL (fLeading f ++ fEncoded f).

(** The calls of that turn. *)
Definition frameLog (f : frame) : list event :=
  EvGetWriter (Some (fNode f)) (Ok (fWriter f)) ::
  separatorLog (fWriter f) (fSeparator f) ++
  [EvPrintLeadingContent ToBuffer (LeadingContent (fNode f)) (fLeading f) None;
   EvEncode ToBuffer (fNode f) (fEncoded f) None;
   EvWrite (fWriter f) (frameRecord f) None;
   EvWrite (fWriter f) [x00] None;
   EvFlush (fWriter f) None].

(** The bytes that turn puts on its sink. *)
Definition frameBytes (f : frame) : list byte :=
  match fSeparator f with Some out => out | None => [] end ++
  frameRecord f ++ [x00].

(** The bytes of the document separator written before the node, when
    there is one. *)
Definition separatorBytes (f : frame) : list byte :=
  match fSeparator f with Some out => out | None => [] end.

(** No document separator that the encoder wrote holds a 0x00 byte. *)
Definition separatorsNulFree (t : list event) : bool :=
  forallb (fun ev =>
             match ev with
             | EvPrintDocumentSeparator _ out _ => negb (hasNul out)
             | _ => true
             end) t.

(** *** Counting boundaries *)

(** The separators the loop asks for on [ms], with [prevDoc] the last-seen
    document index and [prevFile] the last-seen file index when it starts:
    the test of line 189 at every node, and the update of line 225. *)
Fixpoint boundaries (prevDoc : N) (prevFile : Z) (ms : list CandidateNode) : nat :=
  match ms with
  | [] => 0
  | n :: rest =>
      (if (negb (prevDoc =? GetDocument n)%N || negb (prevFile =? GetFileIndex n)%Z)
          && negb (commentsStartWithSepExp_MatchString (LeadingContent n))
       then 1 else 0)
      + boundaries (GetDocument n) prevFile rest
  end.

(** The count the specification gives: the transitions of the pair
    (document index, file index) from one node to the next, leaving out
    the nodes whose leading content starts with the separator sentinel. *)
Fixpoint transitions (prevDoc : N) (prevFile : Z) (ms : list CandidateNode) : nat :=
  match ms with
  | [] => 0
  | n :: rest =>
      (if (negb (prevDoc =? GetDocument n)%N || negb (prevFile =? GetFileIndex n)%Z)
          && negb (commentsStartWithSepExp_MatchString (LeadingContent n))
       then 1 else 0)
      + transitions (GetDocument n) (GetFileIndex n) rest
  end.

(** For a sequence walked by a new printer, the first node is the implicit
    initial document. *)
Definition specifiedSeparators (ms : list CandidateNode) : nat :=
  match ms with
  | [] => 0
  | n :: rest => transitions (GetDocument n) (GetFileIndex n) rest
  end.

(** Where the separators are, in the frames [fs] of a loop that starts
    with [prevDoc] the last-seen document index and [prevFile] the
    last-seen file index: a frame holds the bytes of a separator exactly
    when its node passes the test of line 189, that is when its document
    index is not the last-seen one or its file index is not the last-seen
    one, and its leading content does not start with the sentinel. From
    one frame to the next the last-seen document index becomes that of the
    node (line 225) and the last-seen file index stays what it was. *)
Fixpoint separatorsAtBoundaries (prevDoc : N) (prevFile : Z) (fs : list frame)
  : bool :=
  match fs with
  | [] => true
  | f :: rest =>
      Bool.eqb (isSome (fSeparator f))
               ((negb (prevDoc =? GetDocument (fNode f))%N
                 || negb (prevFile =? GetFileIndex (fNode f))%Z)
                && negb (commentsStartWithSepExp_MatchString
                           (LeadingContent (fNode f))))
      && separatorsAtBoundaries (GetDocument (fNode f)) prevFile rest
  end.

(** *** Records of plain output

    The calls of a turn that returns no error when NUL-separated mode is
    off, and the bytes it puts on its sink: the encoder writes on the sink
    itself, and the printer only flushes. *)
Definition plainLog (f : frame) : list event :=
  EvGetWriter (Some (fNode f)) (Ok (fWriter f)) ::
  separatorLog (fWriter f) (fSeparator f) ++
  [EvPrintLeadingContent (ToWriter (fWriter f)) (LeadingContent (fNode f))
                         (fLeading f) None;
   EvEncode (ToWriter (fWriter f)) (fNode f) (fEncoded f) None;
   EvFlush (fWriter f) None].

Definition plainBytes (f : frame) : list byte :=
  match fSeparator f with Some out => out | None => [] end ++
  fLeading f ++ fEncoded f.

(** *** What the calls answered *)

(** What a call told the printer: all well, an error, or a panic. *)
Definition failureOf (ev : event) : result unit :=
  match ev with
  | EvExplode _ (Err e) => Err e
  | EvExplode _ Panic => Panic
  | EvGetWriter _ (Err e) => Err e
  | EvGetWriter _ Panic => Panic
  | EvPrintDocumentSeparator _ _ (Some e) => Err e
  | EvPrintLeadingContent _ _ _ (Some e) => Err e
  | EvEncode _ _ _ (Some e) => Err e
  | EvWrite _ _ (Some e) => Err e
  | EvFlush _ (Some e) => Err e
  | EvCopy _ _ _ (Some e) => Err e
  | _ => Ok tt
  end.

(** A log in which no call failed. *)
Definition clean (t : list event) : Prop :=
  Forall (fun ev => failureOf ev = Ok tt) t.

(** [accountedFor nul r t]: the calls [t] account for the result [r].
    Either [r] is no error and no call failed; or the last call failed, no
    call before it did, and [r] is what that call answered; or, with
    NUL-separated mode on ([nul]), no call failed, the last two calls
    filled the buffer with a record that holds a 0x00 byte, and [r] is the
    error the printer makes for that. *)
Definition accountedFor (nul : bool) (r : result unit) (t : list event) : Prop :=
  (r = Ok tt /\ clean t)
  \/ (r <> Ok tt /\
      exists t0 ev, t = t0 ++ [ev] /\ clean t0 /\ failureOf ev = r)
  \/ (r = Err nulCharError /\ nul = true /\ clean t /\
      exists t0 c l n e,
        t = t0 ++ [EvPrintLeadingContent ToBuffer c l None;
                   EvEncode ToBuffer n e None] /\
        hasNul (removeLastEOL (l ++ e)) = true).

Definition isCopy (ev : event) : bool :=
  match ev with EvCopy _ _ _ _ => true | _ => false end.

Definition isWrite (ev : event) : bool :=
  match ev with EvWrite _ _ _ => true | _ => false end.

(** A call that has the encoder write leading content or a node straight
    on a sink. *)
Definition encodesOnSink (ev : event) : bool :=
  match ev with
  | EvPrintLeadingContent (ToWriter _) _ _ _ => true
  | EvEncode (ToWriter _) _ _ _ => true
  | _ => false
  end.

(** *** The discipline on sinks *)

(** A call of an encoder method on the printer's own buffer. *)
Definition onBuffer (ev : event) : bool :=
  match ev with
  | EvPrintDocumentSeparator ToBuffer _ _ => true
  | EvPrintLeadingContent ToBuffer _ _ _ => true
  | EvEncode ToBuffer _ _ _ => true
  | _ => false
  end.

(** [disciplined held t held']: the log [t] keeps to the following
    discipline, where [held] is the sink that was obtained and has not been
    flushed since, if there is one, when [t] starts, and [held'] the one
    when [t] ends. A sink is obtained only while none is held; bytes are
    put only on the sink held; a flush is a flush of the sink held, and
    gives it up. *)
Inductive disciplined : option Writer -> list event -> option Writer -> Prop :=
| disciplined_done held : disciplined held [] held
| disciplined_explode ms r t held' :
    disciplined None t held' ->
    disciplined None (EvExplode ms r :: t) held'
| disciplined_obtained n w t held' :
    disciplined (Some w) t held' ->
    disciplined None (EvGetWriter n (Ok w) :: t) held'
| disciplined_refused n r t held' :
    (forall w, r <> Ok w) ->
    disciplined None t held' ->
    disciplined None (EvGetWriter n r :: t) held'
| disciplined_bytes ev w out t held' :
    sinkOutput ev = Some (w, out) ->
    disciplined (Some w) t held' ->
    disciplined (Some w) (ev :: t) held'
| disciplined_buffer ev w t held' :
    onBuffer ev = true ->
    disciplined (Some w) t held' ->
    disciplined (Some w) (ev :: t) held'
| disciplined_flush w err t held' :
    disciplined None t held' ->
    disciplined (Some w) (EvFlush w err :: t) held'.

(** *** The lifetime of a printer

    [later p p']: the printer in state [p] can be in state [p'] after some
    more calls of its methods. *)
Inductive later : resultsPrinter -> resultsPrinter -> Prop :=
| later_now p : later p p
| later_PrintResults ms p w r p1 w1 t p' :
    PrintResults ms p w = (r, p1, w1, t) -> later p1 p' -> later p p'
| later_SetAppendix reader p p' :
    later (SetAppendix reader p) p' -> later p p'
| later_SetNulSepOutput b p p' :
    later (SetNulSepOutput b p) p' -> later p p'.

(** A node tagged as null, or tagged as boolean with the literal value
    [false]. *)
Definition nullOrFalse (node : CandidateNode) : Prop :=
  Tag node = "!!null" \/ (Tag node = "!!bool" /\ Value node = "false").

End Printer.
End Printer.

(* ===================================================================== *)
(** ** A concrete setting to run the printer in *)
(* ===================================================================== *)

Module Sample.
Import Printer.

(** Nodes that carry just the five attributes the printer reads. *)
Record node : Type := {
  tag : string;
  value : string;
  leading : string;
  document : N;
  fileIndex : Z
}.

(** Sinks are numbered and never fail; an appendix reader is the list of
    the bytes it still holds; the collaborators keep no state. *)
#[export] Instance externals : Externals := {|
  CandidateNode := node;
  Tag := tag;
  Value := value;
  LeadingContent := leading;
  GetDocument := document;
  GetFileIndex := fileIndex;
  World := unit;
  Writer := nat;
  Reader := list byte;
  Writer_Write := fun _ _ w => (None, w);
  Writer_Flush := fun _ w => (None, w);
  io_Copy := fun _ reader w => ((reader, None), w)
|}.

(** An encoder in the manner of the YAML one on scalars: a value is written
    on a line of its own, a document separator is the line [---], leading
    content is written as it is. *)
Definition lineEncoder (canHandleAliases : bool) : Encoder := {|
  Encode := fun _ n w => ((list_byte_of_string (value n) ++ [x0a], None), w);
  PrintDocumentSeparator := fun _ w => ((list_byte_of_string "---" ++ [x0a], None), w);
  PrintLeadingContent := fun _ content w => ((list_byte_of_string content, None), w);
  CanHandleAliases := canHandleAliases
|}.

(** An encoder that ends its lines with CR LF and has no document
    separator. *)
Definition crlfEncoder : Encoder := {|
  Encode := fun _ n w => ((list_byte_of_string (value n) ++ [x0d; x0a], None), w);
  PrintDocumentSeparator := fun _ w => (([], None), w);
  PrintLeadingContent := fun _ content w => ((list_byte_of_string content, None), w);
  CanHandleAliases := true
|}.

(** Everything goes to sink 0. *)
Definition singleWriter : PrinterWriter := {|
  GetWriter := fun _ w => (Ok 0, w)
|}.

(** Exploding puts the target in the place of every alias; here an alias
    is a node whose value starts with a star, and its target is the value
    [target]. *)
Definition explodeAliases : DataTreeNavigator := {|
  GetMatchingNodes_explodeOp := fun ms w =>
    (Ok (map (fun n =>
                if String.prefix "*" (value n)
                then {| tag := tag n; value := "target"; leading := leading n;
                        document := document n; fileIndex := fileIndex n |}
                else n) ms), w)
|}.

Definition failingNavigator : DataTreeNavigator := {|
  GetMatchingNodes_explodeOp := fun _ w => (Err "explode failed", w)
|}.

Definition scalar (v : string) (doc : N) (file : Z) : node :=
  {| tag := "!!str"; value := v; leading := ""; document := doc; fileIndex := file |}.

Definition nullNode : node :=
  {| tag := "!!null"; value := "null"; leading := ""; document := 0; fileIndex := 0 |}.

Definition falseNode : node :=
  {| tag := "!!bool"; value := "false"; leading := ""; document := 0; fileIndex := 0 |}.

(** A scalar whose value holds a NUL character between [a] and [b]. *)
Definition nulNode : node :=
  scalar (String "a" (String (Ascii.ascii_of_nat 0) (String "b" EmptyString))) 0 0.

Definition newPrinter (enc : Encoder) : resultsPrinter :=
  NewPrinter explodeAliases enc singleWriter.

(** Two documents of one file. *)
Definition twoDocuments : list node := [scalar "a" 0 0; scalar "b" 1 0].


Definition appendixBytes : list byte := list_byte_of_string "tail".

Definition nulPrinter : resultsPrinter :=
  SetNulSepOutput true (newPrinter (lineEncoder true)).

Definition appendixPrinter : resultsPrinter :=
  SetAppendix (Some appendixBytes) (newPrinter (lineEncoder true)).

Definition failingPrinter : resultsPrinter :=
  NewPrinter failingNavigator (lineEncoder false) singleWriter.

Definition crlfPrinter : resultsPrinter :=
  SetNulSepOutput true (newPrinter crlfEncoder).

(** The runs looked at below. *)
Definition turnCrlf := printLoopBody (scalar "value" 0 0) crlfPrinter tt.

Definition runNullAfterTwoDocuments :=
  PrintResults [nullNode] (printerOf (PrintResults twoDocuments (newPrinter (lineEncoder true)) tt)) tt.

Definition runSecondFileLater :=
  PrintResults [scalar "z" 5 7]
    (printerOf (PrintResults twoDocuments (newPrinter (lineEncoder true)) tt)) tt.


Definition runTwoDocuments :=
  PrintResults twoDocuments (newPrinter (lineEncoder true)) tt.

Definition runTwoDocumentsNul :=
  PrintResults twoDocuments nulPrinter tt.

Definition runNulNode :=
  PrintResults [nulNode] nulPrinter tt.

Definition runEmptyWithAppendix :=
  PrintResults [] appendixPrinter tt.

Definition runWithAppendix :=
  PrintResults [scalar "a" 0 0] appendixPrinter tt.

Definition runNullAndFalse :=
  PrintResults [nullNode; falseNode] (newPrinter (lineEncoder true)) tt.

Definition runAlias :=
  PrintResults [scalar "*ref" 0 0] (newPrinter (lineEncoder false)) tt.

Definition runExplodeFails :=
  PrintResults [scalar "*ref" 0 0] failingPrinter tt.

(** A writer provider that has no sink to give. *)
Definition noWriter : PrinterWriter := {|
  GetWriter := fun _ w => (Err "no sink", w)
|}.

Definition noSinkPrinter : resultsPrinter :=
  NewPrinter explodeAliases (lineEncoder true) noWriter.

Definition runNoSink := PrintResults twoDocuments noSinkPrinter tt.

(** The two documents printed by one call each. *)
Definition runFirstBatch :=
  PrintResults [scalar "a" 0 0] (newPrinter (lineEncoder true)) tt.

Definition runSecondBatch :=
  PrintResults [scalar "b" 1 0] (printerOf runFirstBatch) (worldOf runFirstBatch).

(** Two nodes of the first document and one of the second, in one file. *)
Definition threeNodes : list node :=
  [scalar "a" 0 0; scalar "b" 0 0; scalar "c" 1 0].

Definition runThreeNodes :=
  PrintResults threeNodes (newPrinter (lineEncoder true)) tt.

(** The record the line encoder makes of a node in NUL-separated mode. *)
Definition lineRecord (n : node) : list byte :=
  removeLastEOL (list_byte_of_string (leading n)
                 ++ list_byte_of_string (value n) ++ [x0a]).

End Sample.


(* ===================================================================== *)
(** ** Properties of the result printer *)
(* ===================================================================== *)

Import Printer.

(** *** Inversion of runs *)

Section Inversion.
Context `{Externals}.

Lemma bind_inv {A B} (m : M A) (k : A -> M B) p w r p' w' t :
  bind m k p w = (r, p', w', t) ->
  (exists a p1 w1 t1 t2,
      m p w = (Ok a, p1, w1, t1) /\ k a p1 w1 = (r, p', w', t2) /\
      t = t1 ++ t2)
  \/ (exists e, m p w = (Err e, p', w', t) /\ r = Err e)
  \/ (m p w = (Panic, p', w', t) /\ r = Panic).
Proof.
  unfold bind. destruct (m p w) as [[[[a|e|] p1] w1] t1].
  - destruct (k a p1 w1) as [[[r2 p2] w2] t2] eqn:Hk.
    intros E; inversion E; subst. left. exists a, p1, w1, t1, t2. auto.
  - intros E; inversion E; subst. right; left. exists e. auto.
  - intros E; inversion E; subst. right; right. auto.
Qed.

Lemma call_inv {A} (ev : result A -> event) op p w (r : result A) p' w' t :
  call ev op p w = (r, p', w', t) ->
  op w = (r, w') /\ p' = p /\ t = [ev r].
Proof.
  unfold call. destruct (op w) as [r1 w1]. intros E; inversion E; subst. auto.
Qed.

Lemma emit_inv ev op p w (r : result (list byte)) p' w' t :
  emit ev op p w = (r, p', w', t) ->
  exists out err,
    op w = ((out, err), w') /\ p' = p /\ t = [ev out err] /\
    r = match err with None => Ok out | Some e => Err e end.
Proof.
  unfold emit. destruct (op w) as [[out [e|]] w1];
    intros E; inversion E; subst; eauto 8.
Qed.

Lemma exec_inv ev op p w (r : result unit) p' w' t :
  exec ev op p w = (r, p', w', t) ->
  exists err,
    op w = (err, w') /\ p' = p /\ t = [ev err] /\
    r = match err with None => Ok tt | Some e => Err e end.
Proof.
  unfold exec. destruct (op w) as [[e|] w1];
    intros E; inversion E; subst; eauto 8.
Qed.

End Inversion.

(** Takes a run apart, from its first call to its last. *)
Ltac inv_pair H := inversion H; subst; clear H.

Ltac inv_step :=
  match goal with
  | H : bind _ _ _ _ = _ |- _ =>
      apply bind_inv in H;
      destruct H as [(? & ? & ? & ? & ? & ? & ? & ?)
                    | [(? & ? & ?) | (? & ?)]]
  | H : this _ _ = _ |- _ => unfold this in H; inv_pair H
  | H : assign _ _ _ = _ |- _ => unfold assign in H; inv_pair H
  | H : ret _ _ _ = _ |- _ => unfold ret in H; inv_pair H
  | H : fail _ _ _ = _ |- _ => unfold fail in H; inv_pair H
  | H : panic _ _ = _ |- _ => unfold panic in H; inv_pair H
  | H : call _ _ _ _ = _ |- _ =>
      apply call_inv in H; destruct H as (? & ? & ?)
  | H : emit _ _ _ _ = _ |- _ =>
      apply emit_inv in H; destruct H as (? & [?|] & ? & ? & ? & ?)
  | H : exec _ _ _ _ = _ |- _ =>
      apply exec_inv in H; destruct H as ([?|] & ? & ? & ? & ?)
  | H : printNode _ _ _ _ = _ |- _ => unfold printNode in H
  | H : (if ?c then _ else _) _ _ = _ |- _ => destruct c eqn:?
  | H : Ok _ = Ok _ |- _ => inv_pair H
  | H : Ok _ = Err _ |- _ => discriminate H
  | H : Err _ = Ok _ |- _ => discriminate H
  | H : Ok _ = Panic |- _ => discriminate H
  | H : Panic = Ok _ |- _ => discriminate H
  | H : Err _ = Panic |- _ => discriminate H
  | H : Panic = Err _ |- _ => discriminate H
  | H : Err _ = Err _ |- _ => inv_pair H
  end.

Ltac inv_run := repeat (inv_step; cbv beta zeta in *; subst).

Ltac inv_body H := unfold printLoopBody in H; inv_run.

(** Closes a goal [turn n p r p' t] with the rule [c], once the names the
    rule is stated with are unfolded on both sides. *)
Ltac close_turn c :=
  let Hc := fresh "Hc" in
  pose proof c as Hc;
  unfold encodingLog, separatorLog, recordLog, destinationOf, marked,
    startsBoundary, hasNul, isSome in Hc |- *;
  repeat match goal with
    | Hn : nulSepOutput _ = _ |- _ => rewrite Hn in Hc
    end;
  simpl in Hc; apply Hc; intros; simpl; congruence.

Ltac close_turn_from n p w sep rest :=
  lazymatch rest with
  | [EvPrintLeadingContent _ _ ?l (Some ?e)] =>
      close_turn (turn_leading_err n p w sep l e)
  | [EvPrintLeadingContent _ _ ?l None; EvEncode _ _ ?c (Some ?e)] =>
      close_turn (turn_encode_err n p w sep l c e)
  | [EvPrintLeadingContent _ _ ?l None; EvEncode _ _ ?c None] =>
      close_turn (turn_nul n p w sep l c)
  | [EvPrintLeadingContent _ _ ?l None; EvEncode _ _ ?c None;
     EvWrite _ _ (Some ?e)] =>
      close_turn (turn_write_err n p w sep l c e)
  | [EvPrintLeadingContent _ _ ?l None; EvEncode _ _ ?c None;
     EvWrite _ _ None; EvWrite _ _ (Some ?e)] =>
      close_turn (turn_write_nul_err n p w sep l c e)
  | [EvPrintLeadingContent _ _ ?l None; EvEncode _ _ ?c None;
     EvWrite _ _ None; EvWrite _ _ None; EvFlush _ ?err] =>
      close_turn (turn_flush n p w sep l c err)
  | [EvPrintLeadingContent _ _ ?l None; EvEncode _ _ ?c None;
     EvFlush _ ?err] =>
      close_turn (turn_flush n p w sep l c err)
  end.

Section Runs.
Context `{Externals}.

(** Every run of the loop body is one of the turns. *)
Lemma printLoopBody_turn n p w r p' w' t :
  printLoopBody n p w = (r, p', w', t) -> turn n p r p' t.
Proof.
  intros Hrun. inv_body Hrun; simpl.
  all: lazymatch goal with
       | |- turn _ _ _ _ [EvGetWriter _ (Err _)] => apply turn_getWriter_err
       | |- turn _ _ _ _ [EvGetWriter _ Panic] => apply turn_getWriter_panic
       | |- turn _ _ _ _ [EvGetWriter _ (Ok _);
                          EvPrintDocumentSeparator _ _ (Some _)] =>
           apply turn_separator_err; assumption
       | |- turn ?n ?p _ _ (EvGetWriter _ (Ok ?w)
                            :: EvPrintDocumentSeparator _ ?s None :: ?rest) =>
           close_turn_from n p w (Some s) rest
       | |- turn ?n ?p _ _ (EvGetWriter _ (Ok ?w) :: ?rest) =>
           close_turn_from n p w (@None (list byte)) rest
       end.
Qed.

Lemma forEach_turns ms : forall p w r p' w' t,
  forEach printLoopBody ms p w = (r, p', w', t) -> turns ms p r p' t.
Proof.
  induction ms as [|n ms IH]; intros p w r p' w' t Hrun; simpl in Hrun.
  - inv_run. constructor.
  - apply bind_inv in Hrun.
    destruct Hrun as [(a & p1 & w1 & t1 & t2 & Hm & Hk & ->)
                     | [(e & Hm & ->) | (Hm & ->)]].
    + destruct a. eapply turns_next; eauto using printLoopBody_turn.
    + apply turns_stop; [eauto using printLoopBody_turn | discriminate].
    + apply turns_stop; [eauto using printLoopBody_turn | discriminate].
Qed.

Lemma pipeAppendix_run p w r p' w' t :
  pipeAppendix p w = (r, p', w', t) -> p' = p /\ appendixRun p r t.
Proof.
  unfold pipeAppendix. intros Hrun.
  apply bind_inv in Hrun.
  destruct Hrun as [(a & p1 & w1 & t1 & t2 & Hm & Hk & ->)
                   | [(e & Hm & ->) | (Hm & ->)]];
    unfold this in Hm; inv_pair Hm.
  destruct (appendixReader p1) as [reader|] eqn:Hreader.
  - inv_run; simpl; split; auto.
    + apply (appendix_flush p1 reader _ _ (Some e)); auto.
    + apply (appendix_flush p1 reader _ _ None); auto.
    + eapply appendix_copy_err; eauto.
    + eapply appendix_getWriter_err; eauto.
    + eapply appendix_getWriter_panic; eauto.
  - inv_run. split; auto. now constructor.
Qed.

Lemma primeFirstTime_run es p w r p' w' t :
  primeFirstTime es p w = (r, p', w', t) ->
  t = [] /\ w' = w /\
  ((r = Ok tt /\ p' = primed p es /\ (firstTimePrinting p = true -> es <> []))
   \/ (r = Panic /\ p' = p /\ firstTimePrinting p = true /\ es = [])).
Proof.
  unfold primeFirstTime, primed. intros Hrun.
  apply bind_inv in Hrun.
  destruct Hrun as [(a & p1 & w1 & t1 & t2 & Hm & Hk & ->)
                   | [(e & Hm & ->) | (Hm & ->)]];
    unfold this in Hm; inv_pair Hm.
  destruct (firstTimePrinting p1) eqn:Hfirst, es as [|node es'];
    inv_run; simpl; repeat split; auto;
    left; repeat split; congruence.
Qed.

Lemma explodeIfNeeded_run ms p w r p' w' t :
  explodeIfNeeded ms p w = (r, p', w', t) ->
  p' = p /\
  ((CanHandleAliases (encoder p) = true /\ r = Ok ms /\ w' = w /\ t = [])
   \/ (CanHandleAliases (encoder p) = false /\
       GetMatchingNodes_explodeOp (treeNavigator p) ms w = (r, w') /\
       t = [EvExplode ms r])).
Proof.
  unfold explodeIfNeeded. intros Hrun.
  apply bind_inv in Hrun.
  destruct Hrun as [(a & p1 & w1 & t1 & t2 & Hm & Hk & ->)
                   | [(e & Hm & ->) | (Hm & ->)]];
    unfold this in Hm; inv_pair Hm.
  destruct (CanHandleAliases (encoder p1)) eqn:Hc; simpl in Hk.
  - unfold ret in Hk. inv_pair Hk. split; [reflexivity|]. left. auto.
  - apply call_inv in Hk. destruct Hk as (Hex & -> & ->).
    split; [reflexivity|]. right. auto.
Qed.

Lemma afterExplode_printed ms es p w w1 r p' w' t :
  ms <> [] -> walks p w ms es ->
  bind (primeFirstTime es)
       (fun _ => bind (forEach printLoopBody es) (fun _ => pipeAppendix)) p w1
    = (r, p', w', t) ->
  (firstTimePrinting p = true -> es = [] ->
   printed ms p w Panic p (explodeLog p ms es)) ->
  printed ms p w r p' (explodeLog p ms es ++ t).
Proof.
  intros Hne Hwalks Hrun Hpanic.
  apply bind_inv in Hrun.
  destruct Hrun as [(a & p2 & w2 & t3 & t4 & Hp & Hk & ->)
                   | [(e & Hp & ->) | (Hp & ->)]];
    apply primeFirstTime_run in Hp;
    destruct Hp as (-> & -> & [(Hr & -> & Hfront) | (Hr & -> & Hfirst & ->)]);
    try discriminate.
  - apply bind_inv in Hk.
    destruct Hk as [(a' & p3 & w3 & t5 & t6 & Hloop & Hk & ->)
                   | [(e & Hloop & ->) | (Hloop & ->)]];
      apply forEach_turns in Hloop.
    + apply pipeAppendix_run in Hk. destruct Hk as (-> & Happ).
      destruct a'. simpl. eapply printed_loop_done; eauto.
    + simpl. eapply printed_loop_stop; eauto. discriminate.
    + simpl. eapply printed_loop_stop; eauto. discriminate.
  - rewrite app_nil_r. auto.
Qed.

Lemma PrintResults_printed ms p w r p' w' t :
  PrintResults ms p w = (r, p', w', t) -> printed ms p w r p' t.
Proof.
  unfold PrintResults. destruct ms as [|m ms]; simpl.
  { intros Hrun. inv_run. now constructor. }
  assert (Hne : m :: ms <> []) by discriminate.
  revert Hne. generalize (m :: ms) as ms0. clear m ms. intros ms Hne Hrun.
  apply bind_inv in Hrun.
  destruct Hrun as [(es & p1 & w1 & t1 & t2 & Hm & Hk & ->)
                   | [(e & Hm & ->) | (Hm & ->)]];
    apply explodeIfNeeded_run in Hm;
    destruct Hm as (-> & [(Hc & Hr & -> & ->) | (Hc & Hex & ->)]);
    try discriminate.
  - (* the encoder handles aliases: the loop walks [ms] *)
    inv_pair Hr.
    replace ([] ++ t2) with (explodeLog p ms ms ++ t2)
      by (unfold explodeLog; now rewrite Hc).
    eapply afterExplode_printed; eauto using walks.
    intros _ ->. congruence.
  - (* it does not: the loop walks the exploded list *)
    replace [EvExplode ms (Ok es)] with (explodeLog p ms es)
      by (unfold explodeLog; now rewrite Hc).
    eapply afterExplode_printed; eauto using walks.
    intros Hfirst ->. unfold explodeLog. rewrite Hc.
    eapply printed_front_panic; eauto.
  - eapply printed_explode_err; eauto.
  - eapply printed_explode_panic; eauto.
Qed.

End Runs.

(** *** What a turn keeps and what it changes *)

Section PrinterFacts.
Context `{Externals}.

Lemma turn_keeps n p r p' t :
  turn n p r p' t ->
  firstTimePrinting p' = firstTimePrinting p /\
  previousFileIndex p' = previousFileIndex p /\
  nulSepOutput p' = nulSepOutput p /\
  appendixReader p' = appendixReader p /\
  encoder p' = encoder p /\ treeNavigator p' = treeNavigator p.
Proof. destruct 1; simpl; auto 10. Qed.

Lemma turn_ok_document n p p' t :
  turn n p (Ok tt) p' t -> previousDocIndex p' = GetDocument n.
Proof.
  intros Ht. inversion Ht; subst. reflexivity.
Qed.

Lemma turns_keeps ms p r p' t :
  turns ms p r p' t ->
  firstTimePrinting p' = firstTimePrinting p /\
  previousFileIndex p' = previousFileIndex p /\
  nulSepOutput p' = nulSepOutput p /\
  appendixReader p' = appendixReader p /\
  encoder p' = encoder p /\ treeNavigator p' = treeNavigator p.
Proof.
  induction 1 as [p|n ms p p1 t1 r p' t2 Ht _ IH|n ms p r p' t Ht _].
  - auto 10.
  - apply turn_keeps in Ht. intuition congruence.
  - now apply turn_keeps in Ht.
Qed.

Lemma last_cons_first {A} (a : A) l d : last (a :: l) d = last l a.
Proof.
  revert a d. induction l as [|b l IH]; intros a d; [reflexivity|].
  change (last (a :: b :: l) d) with (last (b :: l) d).
  now rewrite !IH.
Qed.

Lemma turns_ok_document ms p p' t :
  turns ms p (Ok tt) p' t ->
  previousDocIndex p' = last (map GetDocument ms) (previousDocIndex p).
Proof.
  remember (Ok tt) as r eqn:Hr. intros Hts. revert Hr.
  induction Hts as [p|n ms p p1 t1 r p' t2 Ht Hts IH|n ms p r p' t Ht Hne];
    intros Hr; try subst r.
  - reflexivity.
  - rewrite IH by reflexivity. apply turn_ok_document in Ht. rewrite Ht.
    change (map GetDocument (n :: ms)) with (GetDocument n :: map GetDocument ms).
    now rewrite last_cons_first.
  - congruence.
Qed.

Lemma primed_first p es :
  es <> [] ->
  firstTimePrinting (primed p es) = false /\
  previousFileIndex (primed p es)
  = (if firstTimePrinting p
     then match es with n :: _ => GetFileIndex n | [] => previousFileIndex p end
     else previousFileIndex p).
Proof.
  destruct es as [|n es]; [congruence|]. intros _. unfold primed.
  destruct (firstTimePrinting p) eqn:Hf; simpl; auto.
Qed.

Lemma printed_started ms p w r p' t :
  printed ms p w r p' t -> firstTimePrinting p = false ->
  firstTimePrinting p' = false /\ previousFileIndex p' = previousFileIndex p.
Proof.
  intros Hp Hf.
  assert (Hprimed : forall es, primed p es = p).
  { intros [|n es]; unfold primed; [reflexivity|now rewrite Hf]. }
  destruct Hp as [?|? ? ? ? ?|? ? ? ?|? ? ? ? ?|es r p' t ? ? ? Hts ?
                 |es p1 t r t' ? ? ? Hts ?]; auto;
    rewrite Hprimed in Hts; apply turns_keeps in Hts; intuition congruence.
Qed.

Lemma walks_functional p w ms es1 es2 :
  walks p w ms es1 -> walks p w ms es2 -> es1 = es2.
Proof.
  destruct 1, 1; congruence.
Qed.

Lemma printed_first ms p w r p' t n es :
  printed ms p w r p' t -> firstTimePrinting p = true -> ms <> [] ->
  walks p w ms (n :: es) ->
  firstTimePrinting p' = false /\ previousFileIndex p' = GetFileIndex n.
Proof.
  intros Hp Hf Hne Hw.
  assert (Hprimed : firstTimePrinting (primed p (n :: es)) = false /\
                    previousFileIndex (primed p (n :: es)) = GetFileIndex n).
  { unfold primed. rewrite Hf. auto. }
  destruct Hp as [?|e w1 ? Hc Hex|w1 ? Hc Hex|w1 ? Hc Hex ?
                 |es' r p' t ? Hw' ? Hts ?|es' p1 t r t' ? Hw' ? Hts ?];
    try congruence;
    try (inversion Hw; congruence);
    rewrite (walks_functional _ _ _ _ _ Hw' Hw) in Hts;
    apply turns_keeps in Hts; intuition congruence.
Qed.

Lemma printed_ok_document ms p w p' t es :
  printed ms p w (Ok tt) p' t -> ms <> [] -> walks p w ms es ->
  previousDocIndex p' = last (map GetDocument es) (previousDocIndex p).
Proof.
  intros Hp Hne Hw.
  inversion Hp as [?|? ? ? ? ?|? ? ? ?|? ? ? ? ?|es' r' p'' t' ? Hw' ? Hts Hr
                  |es' p1 t1 r' t' ? Hw' ? Hts ?]; subst; try congruence.
  rewrite (walks_functional _ _ _ _ _ Hw' Hw) in Hts.
  apply turns_ok_document in Hts. rewrite Hts.
  destruct es as [|n es]; [reflexivity|].
  change (map GetDocument (n :: es)) with (GetDocument n :: map GetDocument es).
  now rewrite !last_cons_first.
Qed.

Lemma later_started p p' :
  later p p' -> firstTimePrinting p = false ->
  firstTimePrinting p' = false /\ previousFileIndex p' = previousFileIndex p.
Proof.
  induction 1 as [p|ms p w r p1 w1 t p' Hrun _ IH|reader p p' _ IH|b p p' _ IH];
    intros Hf; auto.
  - apply PrintResults_printed in Hrun.
    destruct (printed_started _ _ _ _ _ _ Hrun Hf) as [Hf1 Hfile].
    destruct (IH Hf1). split; congruence.
Qed.

(** C8: across the calls of [PrintResults] on a printer, the last-seen
    document index is set to the document index of a node once that node
    has been printed (so after a call that returned no error it is the
    document index of the last node walked), whereas the last-seen file
    index is never changed by a turn of the loop: it is set from the first
    node of the first non-empty sequence the printer walks, and no later
    call of a method of the printer changes it. *)
Theorem C8_last_seen_indices :
  (forall n p w p' w' t,
      printLoopBody n p w = (Ok tt, p', w', t) ->
      previousDocIndex p' = GetDocument n) /\
  (forall n p w r p' w' t,
      printLoopBody n p w = (r, p', w', t) ->
      previousFileIndex p' = previousFileIndex p) /\
  (forall ms es p w p' w' t,
      PrintResults ms p w = (Ok tt, p', w', t) -> ms <> [] ->
      walks p w ms es ->
      previousDocIndex p' = last (map GetDocument es) (previousDocIndex p)) /\
  (forall ms n es p w r p' w' t,
      PrintResults ms p w = (r, p', w', t) ->
      firstTimePrinting p = true -> ms <> [] -> walks p w ms (n :: es) ->
      firstTimePrinting p' = false /\ previousFileIndex p' = GetFileIndex n) /\
  (forall p p',
      firstTimePrinting p = false -> later p p' ->
      firstTimePrinting p' = false /\
      previousFileIndex p' = previousFileIndex p).
Proof.
  repeat split.
  - intros n p w p' w' t Hrun.
    eapply turn_ok_document, printLoopBody_turn, Hrun.
  - intros n p w r p' w' t Hrun.
    apply printLoopBody_turn, turn_keeps in Hrun. tauto.
  - intros ms es p w p' w' t Hrun Hne Hw.
    eapply printed_ok_document; eauto using PrintResults_printed.
  - eapply printed_first; eauto using PrintResults_printed.
  - eapply printed_first; eauto using PrintResults_printed.
  - eapply later_started; eauto.
  - eapply later_started; eauto.
Qed.

(** *** Logs *)

Lemma encodedNodes_app t1 t2 :
  encodedNodes (t1 ++ t2) = encodedNodes t1 ++ encodedNodes t2.
Proof.
  induction t1 as [|ev t1 IH]; [reflexivity|].
  destruct ev; simpl; congruence.
Qed.

Lemma routedNodes_app t1 t2 :
  routedNodes (t1 ++ t2) = routedNodes t1 ++ routedNodes t2.
Proof.
  induction t1 as [|ev t1 IH]; [reflexivity|].
  destruct ev as [| [n|] | | | | | |]; simpl; congruence.
Qed.

Lemma output_app sel t1 t2 :
  output sel (t1 ++ t2) = output sel t1 ++ output sel t2.
Proof.
  induction t1 as [|ev t1 IH]; [reflexivity|]. simpl.
  destruct (sinkOutput ev) as [[w out]|]; [|assumption].
  destruct (sel w); [|assumption]. now rewrite IH, app_assoc.
Qed.

Lemma separatorCount_app t1 t2 :
  separatorCount (t1 ++ t2) = separatorCount t1 + separatorCount t2.
Proof.
  unfold separatorCount. now rewrite filter_app, length_app.
Qed.

(** Unfolds the log of a turn down to a list of calls. *)
Ltac turn_log :=
  unfold encodingLog, separatorLog, recordLog, marked in *;
  repeat match goal with
    | sep : option (list byte) |- _ => destruct sep
    | |- context [nulSepOutput ?p] => destruct (nulSepOutput p)
    end;
  simpl in *.

Lemma turn_routed n p r p' t : turn n p r p' t -> routedNodes t = [n].
Proof. destruct 1; turn_log; reflexivity. Qed.

Lemma turn_no_explode n p r p' t :
  turn n p r p' t -> existsb isExplode t = false.
Proof. destruct 1; turn_log; reflexivity. Qed.

Lemma turn_encoded n p r p' t :
  turn n p r p' t ->
  (encodedNodes t = [] /\ p' = p /\ r <> Ok tt) \/
  (encodedNodes t = [n] /\
   printedMatches p' = printedMatches p || countsAsPrinted n).
Proof.
  destruct 1; turn_log; auto; left; repeat split; discriminate.
Qed.

Lemma turn_ok_encoded n p p' t :
  turn n p (Ok tt) p' t -> encodedNodes t = [n].
Proof.
  intros Ht. destruct (turn_encoded _ _ _ _ _ Ht) as [(_ & _ & Hr)|[He _]];
    congruence.
Qed.

Lemma turn_printedMatches n p r p' t :
  turn n p r p' t ->
  printedMatches p' = printedMatches p || existsb countsAsPrinted (encodedNodes t).
Proof.
  intros Ht. destruct (turn_encoded _ _ _ _ _ Ht) as [(-> & -> & _)|[-> ->]];
    simpl; now rewrite ?orb_false_r.
Qed.

Lemma turns_printedMatches ms p r p' t :
  turns ms p r p' t ->
  printedMatches p' = printedMatches p || existsb countsAsPrinted (encodedNodes t).
Proof.
  induction 1 as [p|n ms p p1 t1 r p' t2 Ht _ IH|n ms p r p' t Ht _].
  - simpl. now rewrite orb_false_r.
  - apply turn_printedMatches in Ht.
    now rewrite IH, Ht, encodedNodes_app, existsb_app, orb_assoc.
  - eapply turn_printedMatches; eassumption.
Qed.

(** The nodes routed and the nodes encoded are the front of the sequence
    walked, and all of it when the loop returns no error. *)
Lemma turns_routed ms p r p' t :
  turns ms p r p' t ->
  exists rest, ms = routedNodes t ++ rest /\ (r = Ok tt -> rest = []).
Proof.
  induction 1 as [p|n ms p p1 t1 r p' t2 Ht _ IH|n ms p r p' t Ht Hr].
  - exists []. auto.
  - destruct IH as (rest & -> & Hrest). exists rest.
    rewrite routedNodes_app, (turn_routed _ _ _ _ _ Ht). auto.
  - exists ms. rewrite (turn_routed _ _ _ _ _ Ht). split; [reflexivity|].
    congruence.
Qed.

Lemma turns_encoded ms p r p' t :
  turns ms p r p' t ->
  exists rest, ms = encodedNodes t ++ rest /\ (r = Ok tt -> rest = []).
Proof.
  induction 1 as [p|n ms p p1 t1 r p' t2 Ht _ IH|n ms p r p' t Ht Hr].
  - exists []. auto.
  - destruct IH as (rest & -> & Hrest). exists rest.
    rewrite encodedNodes_app, (turn_ok_encoded _ _ _ _ Ht). auto.
  - destruct (turn_encoded _ _ _ _ _ Ht) as [(-> & _ & _)|[-> _]].
    + exists (n :: ms). split; [reflexivity|congruence].
    + exists ms. split; [reflexivity|congruence].
Qed.

Lemma turns_no_explode ms p r p' t :
  turns ms p r p' t -> existsb isExplode t = false.
Proof.
  induction 1 as [p|n ms p p1 t1 r p' t2 Ht _ IH|n ms p r p' t Ht _];
    [reflexivity| |now apply turn_no_explode in Ht].
  rewrite existsb_app, IH. now rewrite (turn_no_explode _ _ _ _ _ Ht).
Qed.

Lemma appendixRun_log p r t :
  appendixRun p r t ->
  routedNodes t = [] /\ encodedNodes t = [] /\ existsb isExplode t = false /\
  separatorCount t = 0.
Proof. destruct 1; simpl; auto. Qed.

Lemma explodeLog_log p ms es :
  routedNodes (explodeLog p ms es) = [] /\
  encodedNodes (explodeLog p ms es) = [] /\
  separatorCount (explodeLog p ms es) = 0 /\
  forall sel, output sel (explodeLog p ms es) = [].
Proof.
  unfold explodeLog. destruct (CanHandleAliases (encoder p)); simpl; auto.
Qed.

Lemma primed_keeps p es :
  printedMatches (primed p es) = printedMatches p /\
  nulSepOutput (primed p es) = nulSepOutput p /\
  appendixReader (primed p es) = appendixReader p /\
  encoder (primed p es) = encoder p.
Proof.
  unfold primed. destruct es; [auto|]. destruct (firstTimePrinting p); auto.
Qed.

(** *** Logs of whole calls *)

Lemma printed_printedMatches ms p w r p' t :
  printed ms p w r p' t ->
  printedMatches p' = printedMatches p || existsb countsAsPrinted (encodedNodes t).
Proof.
  destruct 1 as [?|? ? ? ? ?|? ? ? ?|? ? ? ? ?|es r p' t ? ? ? Hts ?
                |es p1 t r t' ? ? ? Hts Happ]; simpl;
    rewrite ?orb_false_r; auto;
    apply turns_printedMatches in Hts;
    destruct (primed_keeps p es) as (Hpm & _);
    destruct (explodeLog_log p ms es) as (_ & Hex & _);
    rewrite !encodedNodes_app, Hex; simpl.
  - congruence.
  - apply appendixRun_log in Happ. destruct Happ as (_ & -> & _).
    rewrite app_nil_r. congruence.
Qed.

Lemma printed_walked ms p w r p' t es :
  printed ms p w r p' t -> ms <> [] -> walks p w ms es ->
  (exists rest, es = routedNodes t ++ rest /\ (r = Ok tt -> rest = [])) /\
  (exists rest, es = encodedNodes t ++ rest /\ (r = Ok tt -> rest = [])).
Proof.
  intros Hp Hne Hw.
  destruct (explodeLog_log p ms es) as (Hrouted & Hencoded & _).
  destruct Hp as [?|e w1 ? Hc Hex|w1 ? Hc Hex|w1 ? Hc Hex ?
                 |es' r p' t ? Hw' ? Hts Hr|es' p1 t r t' ? Hw' ? Hts Happ];
    try congruence;
    try (inversion Hw; congruence).
  - inversion Hw; subst; try congruence.
    assert (es = []) by congruence. subst. simpl.
    split; exists []; auto.
  - rewrite (walks_functional _ _ _ _ _ Hw' Hw) in *.
    rewrite routedNodes_app, encodedNodes_app, Hrouted, Hencoded. simpl.
    split; [eapply turns_routed|eapply turns_encoded]; eauto.
  - rewrite (walks_functional _ _ _ _ _ Hw' Hw) in *.
    apply appendixRun_log in Happ. destruct Happ as (Hr1 & He1 & _).
    rewrite !routedNodes_app, !encodedNodes_app, Hrouted, Hencoded, Hr1, He1.
    simpl. rewrite !app_nil_r.
    destruct (turns_routed _ _ _ _ _ Hts) as (rest1 & E1 & N1).
    destruct (turns_encoded _ _ _ _ _ Hts) as (rest2 & E2 & N2).
    rewrite (N1 eq_refl) in E1. rewrite (N2 eq_refl) in E2.
    split; exists []; split; auto.
Qed.

Lemma countsAsPrinted_false n : countsAsPrinted n = false <-> nullOrFalse n.
Proof.
  unfold countsAsPrinted, nullOrFalse.
  destruct (String.eqb_spec (Tag n) "!!null"),
           (String.eqb_spec (Tag n) "!!bool"),
           (String.eqb_spec (Value n) "false"); simpl; intuition congruence.
Qed.

Lemma existsb_countsAsPrinted_false l :
  (forall n, In n l -> nullOrFalse n) -> existsb countsAsPrinted l = false.
Proof.
  induction l as [|n l IH]; [reflexivity|]. intros Hall. simpl.
  rewrite IH by (intros; apply Hall; now right).
  rewrite (proj2 (countsAsPrinted_false n)); [reflexivity|].
  apply Hall. now left.
Qed.

Lemma existsb_countsAsPrinted_true l n :
  In n l -> ~ nullOrFalse n -> existsb countsAsPrinted l = true.
Proof.
  intros Hin Hn. apply existsb_exists. exists n. split; [assumption|].
  destruct (countsAsPrinted n) eqn:E; [reflexivity|].
  apply countsAsPrinted_false in E. contradiction.
Qed.

Lemma later_printedMatches p p' :
  later p p' -> printedMatches p = true -> printedMatches p' = true.
Proof.
  induction 1 as [p|ms p w r p1 w1 t p' Hrun _ IH|reader p p' _ IH|b p p' _ IH];
    intros Hpm; auto.
  apply IH. apply PrintResults_printed, printed_printedMatches in Hrun.
  now rewrite Hrun, Hpm.
Qed.

(** C6: a new printer has printed nothing; [PrintedAnything] is still false
    after [PrintResults] walked a sequence made only of nodes tagged
    [!!null] or tagged [!!bool] with the value [false]; it is true as soon
    as [printNode] was called on a node of any other kind (so it is true
    after a call that returned no error on a sequence with such a node),
    and once true it stays true as long as the printer lives. *)
Theorem C6_printed_anything :
  (forall tn enc pw, PrintedAnything (NewPrinter tn enc pw) = false) /\
  (forall ms es p w r p' w' t,
      PrintResults ms p w = (r, p', w', t) -> walks p w ms es ->
      (forall n, In n es -> nullOrFalse n) ->
      PrintedAnything p = false -> PrintedAnything p' = false) /\
  (forall ms p w r p' w' t n,
      PrintResults ms p w = (r, p', w', t) ->
      In n (encodedNodes t) -> ~ nullOrFalse n ->
      PrintedAnything p' = true) /\
  (forall ms es p w p' w' t n,
      PrintResults ms p w = (Ok tt, p', w', t) -> ms <> [] ->
      walks p w ms es -> In n es -> ~ nullOrFalse n ->
      PrintedAnything p' = true) /\
  (forall p p',
      PrintedAnything p = true -> later p p' -> PrintedAnything p' = true).
Proof.
  unfold PrintedAnything. repeat split.
  - intros ms es p w r p' w' t Hrun Hw Hall Hp.
    apply PrintResults_printed in Hrun.
    rewrite (printed_printedMatches _ _ _ _ _ _ Hrun), Hp. simpl.
    destruct ms as [|m ms]; [inversion Hrun; subst; try congruence; reflexivity|].
    destruct (printed_walked _ _ _ _ _ _ es Hrun) as (_ & rest & -> & _);
      [discriminate|assumption|].
    apply existsb_countsAsPrinted_false.
    intros n Hin. apply Hall, in_or_app. now left.
  - intros ms p w r p' w' t n Hrun Hin Hn.
    apply PrintResults_printed, printed_printedMatches in Hrun.
    rewrite Hrun, (existsb_countsAsPrinted_true _ n Hin Hn).
    apply orb_true_r.
  - intros ms es p w p' w' t n Hrun Hne Hw Hin Hn.
    apply PrintResults_printed in Hrun.
    destruct (printed_walked _ _ _ _ _ _ es Hrun Hne Hw)
      as (_ & rest & E & Hrest).
    rewrite (Hrest eq_refl), app_nil_r in E. subst es.
    rewrite (printed_printedMatches _ _ _ _ _ _ Hrun),
      (existsb_countsAsPrinted_true _ n Hin Hn).
    apply orb_true_r.
  - intros p p' Hp Hl. eapply later_printedMatches; eauto.
Qed.

(** C7: when the encoder cannot handle aliases, a call of [PrintResults]
    on a non-empty sequence first calls the explode operation, on the whole
    sequence, and never calls it again; every sink is obtained, and every
    node is encoded, after that call, and the nodes routed and encoded are
    the nodes of the exploded sequence, in order (all of them when the call
    returns no error). When the explode operation fails, its error is what
    [PrintResults] returns, and nothing else was called: no sink obtained,
    nothing written. (On an empty sequence [PrintResults] returns before it
    asks the encoder.) *)
Theorem C7_explode_before_output ms p w r p' w' t :
  CanHandleAliases (encoder p) = false -> ms <> [] ->
  PrintResults ms p w = (r, p', w', t) ->
  exists rx w1 t',
    GetMatchingNodes_explodeOp (treeNavigator p) ms w = (rx, w1) /\
    t = EvExplode ms rx :: t' /\
    existsb isExplode t' = false /\
    match rx with
    | Ok es =>
        (exists rest, es = routedNodes t' ++ rest /\ (r = Ok tt -> rest = [])) /\
        (exists rest, es = encodedNodes t' ++ rest /\ (r = Ok tt -> rest = []))
    | Err e => r = Err e /\ t' = [] /\ p' = p
    | Panic => r = Panic /\ t' = [] /\ p' = p
    end.
Proof.
  intros Hc Hne Hrun. apply PrintResults_printed in Hrun.
  pose proof (fun es => printed_walked _ _ _ _ _ _ es Hrun Hne) as Hwalked.
  destruct Hrun as [?|e w1 ? _ Hex|w1 ? _ Hex|w1 ? _ Hex ?
                   |es r p' t ? Hw ? Hts Hr|es p1 t r t' ? Hw ? Hts Happ];
    try congruence.
  - exists (Err e), w1, []. repeat split; auto.
  - exists Panic, w1, []. repeat split; auto.
  - exists (Ok []), w1, []. repeat split; auto; exists []; split; auto.
  - specialize (Hwalked es Hw).
    inversion Hw as [Hc'|es' w1 _ Hex]; subst; [congruence|].
    unfold explodeLog in *. rewrite Hc in *. simpl in *.
    exists (Ok es), w1, t. repeat split; try tauto.
    eapply turns_no_explode; eauto.
  - specialize (Hwalked es Hw).
    inversion Hw as [Hc'|es' w1 _ Hex]; subst; [congruence|].
    unfold explodeLog in *. rewrite Hc in *. simpl in *.
    exists (Ok es), w1, (t ++ t'). repeat split; try tauto.
    rewrite existsb_app, (turns_no_explode _ _ _ _ _ Hts).
    apply appendixRun_log in Happ. tauto.
Qed.

(** *** NUL-separated records *)

Lemma turn_nul_frame n p p' t :
  turn n p (Ok tt) p' t -> nulSepOutput p = true ->
  exists f,
    fNode f = n /\ t = frameLog f /\ hasNul (frameRecord f) = false /\
    isSome (fSeparator f) = startsBoundary p n.
Proof.
  intros Ht Hnul.
  inversion Ht as [| | | | | | | |writer sep leading encoded err Hsep Hfree E];
    subst.
  destruct err; [discriminate|].
  exists {| fNode := n; fWriter := writer; fSeparator := sep;
            fLeading := leading; fEncoded := encoded |}.
  unfold frameLog, frameRecord, encodingLog, recordLog, destinationOf.
  rewrite Hnul. simpl. rewrite <- !app_assoc. simpl. auto.
Qed.

(** The test of line 189 on a frame, and the indices the next turn
    starts from. *)
Lemma separatorsAtBoundaries_cons f fs p p1 :
  isSome (fSeparator f) = startsBoundary p (fNode f) ->
  previousDocIndex p1 = GetDocument (fNode f) ->
  previousFileIndex p1 = previousFileIndex p ->
  separatorsAtBoundaries (previousDocIndex p1) (previousFileIndex p1) fs = true ->
  separatorsAtBoundaries (previousDocIndex p) (previousFileIndex p) (f :: fs)
  = true.
Proof.
  intros Hsep Hdoc Hfile Hrest. simpl. rewrite Hsep. unfold startsBoundary.
  rewrite Bool.eqb_reflx. simpl. now rewrite <- Hdoc, <- Hfile.
Qed.

(** The indices the loop starts from, after lines 169-174. *)
Lemma separatorsAtBoundaries_primed p es fs :
  separatorsAtBoundaries (previousDocIndex (primed p es))
                         (previousFileIndex (primed p es)) fs = true ->
  (if firstTimePrinting p
   then match es with
        | n :: _ => separatorsAtBoundaries (GetDocument n) (GetFileIndex n) fs
        | [] => true
        end
   else separatorsAtBoundaries (previousDocIndex p) (previousFileIndex p) fs)
  = true.
Proof.
  unfold primed. destruct es; destruct (firstTimePrinting p); simpl; auto.
Qed.

Lemma turns_nul_frames ms p p' t :
  turns ms p (Ok tt) p' t -> nulSepOutput p = true ->
  exists fs,
    map fNode fs = ms /\ t = flat_map frameLog fs /\
    Forall (fun f => hasNul (frameRecord f) = false) fs /\
    separatorsAtBoundaries (previousDocIndex p) (previousFileIndex p) fs = true.
Proof.
  remember (Ok tt) as r eqn:Hr. intros Hts. revert Hr.
  induction Hts as [p|n ms p p1 t1 r p' t2 Ht Hts IH|n ms p r p' t Ht Hne];
    intros Hr Hnul; try subst r.
  - exists []. auto.
  - destruct (turn_nul_frame _ _ _ _ Ht Hnul) as (f & Hn & Hlog & Hfree & Hsep).
    destruct IH as (fs & Hms & Hlogs & Hfrees & Hplaced); [reflexivity| |].
    { apply turn_keeps in Ht. intuition congruence. }
    exists (f :: fs). subst. repeat split; [now constructor|].
    apply (separatorsAtBoundaries_cons f fs p p1); auto.
    + eapply turn_ok_document; eauto.
    + apply turn_keeps in Ht. tauto.
  - congruence.
Qed.

Lemma output_frameLog sel f :
  output sel (frameLog f) = if sel (fWriter f) then frameBytes f else [].
Proof.
  unfold frameLog, frameBytes, separatorLog.
  destruct (fSeparator f); simpl; destruct (sel (fWriter f)); simpl;
    rewrite ?app_nil_r; reflexivity.
Qed.

Lemma output_frames sel fs :
  output sel (flat_map frameLog fs)
  = flat_map (fun f => if sel (fWriter f) then frameBytes f else []) fs.
Proof.
  induction fs as [|f fs IH]; [reflexivity|].
  change (flat_map frameLog (f :: fs)) with (frameLog f ++ flat_map frameLog fs).
  rewrite output_app, output_frameLog, IH. reflexivity.
Qed.

End PrinterFacts.

(** *** One trailing line terminator *)

Section RemoveLastEOL.

Lemma nth_snoc {A} (l : list A) (a d : A) : nth (length l) (l ++ [a]) d = a.
Proof. apply nth_middle. Qed.

Lemma firstn_snoc {A} (l l' : list A) : firstn (length l) (l ++ l') = l.
Proof.
  rewrite firstn_app, Nat.sub_diag, firstn_all. simpl. apply app_nil_r.
Qed.

Lemma removeLastEOL_snoc b x :
  removeLastEOL (b ++ [x])
  = if Nat.leb 1 (length b) && Byte.eqb (last b x00) x0d && Byte.eqb x x0a
    then removelast b
    else if Byte.eqb x x0d || Byte.eqb x x0a then b else b ++ [x].
Proof.
  unfold removeLastEOL.
  destruct b as [|y b' _] using rev_ind; [reflexivity|].
  rewrite !length_app. simpl length.
  replace (length b' + 1 + 1 - 2) with (length b') by lia.
  replace (length b' + 1 + 1 - 1) with (length (b' ++ [y]))
    by (rewrite length_app; simpl; lia).
  rewrite nth_snoc.
  replace (nth (length b') ((b' ++ [y]) ++ [x]) x00) with y
    by (rewrite <- app_assoc; symmetry; apply nth_middle).
  replace (firstn (length b') ((b' ++ [y]) ++ [x])) with b'
    by (rewrite <- app_assoc; symmetry; apply firstn_snoc).
  replace (Nat.leb 2 (length b' + 1 + 1)) with true
    by (symmetry; apply Nat.leb_le; lia).
  replace (Nat.leb 1 (length b' + 1 + 1)) with true
    by (symmetry; apply Nat.leb_le; lia).
  replace (Nat.leb 1 (length b' + 1)) with true
    by (symmetry; apply Nat.leb_le; lia).
  rewrite last_last, removelast_last.
  rewrite (firstn_snoc (b' ++ [y]) [x]).
  reflexivity.
Qed.

Lemma removeLastEOL_crlf b : removeLastEOL (b ++ [x0d; x0a]) = b.
Proof.
  change (b ++ [x0d; x0a]) with (b ++ [x0d] ++ [x0a]).
  rewrite app_assoc, removeLastEOL_snoc, length_app, last_last, removelast_last.
  simpl length.
  replace (Nat.leb 1 (length b + 1)) with true by (symmetry; apply Nat.leb_le; lia).
  reflexivity.
Qed.

Lemma removeLastEOL_lf b :
  last b x00 <> x0d -> removeLastEOL (b ++ [x0a]) = b.
Proof.
  intros Hlast. rewrite removeLastEOL_snoc.
  destruct (Byte.eqb (last b x00) x0d) eqn:E.
  - apply Byte.byte_dec_bl in E. contradiction.
  - rewrite andb_false_r. reflexivity.
Qed.

Lemma removeLastEOL_cr b : removeLastEOL (b ++ [x0d]) = b.
Proof.
  rewrite removeLastEOL_snoc. rewrite andb_false_r. reflexivity.
Qed.

Lemma removeLastEOL_other b :
  last b x00 <> x0d -> last b x00 <> x0a -> removeLastEOL b = b.
Proof.
  destruct b as [|x b'] using rev_ind; [reflexivity|]. clear IHb'.
  rewrite last_last. intros Hcr Hlf. rewrite removeLastEOL_snoc.
  destruct (Byte.eqb x x0d) eqn:Ecr;
    [apply Byte.byte_dec_bl in Ecr; contradiction|].
  destruct (Byte.eqb x x0a) eqn:Elf;
    [apply Byte.byte_dec_bl in Elf; contradiction|].
  rewrite andb_false_r. reflexivity.
Qed.

End RemoveLastEOL.

Section NulRecords.
Context `{Externals}.

(** C5: in NUL-separated mode one trailing line terminator is taken off
    the buffered record: a final CR LF pair goes as a whole, else a single
    final CR or LF goes, and one only; a buffer that ends in neither is
    left as it is. A turn of the loop that returns no error writes on the
    sink the buffer (leading content, then encoded node) so stripped, and
    then the single byte 0x00: a buffer [value\r\n] is written as [value]
    and 0x00. *)
Theorem C5_one_line_terminator_stripped :
  (forall b, removeLastEOL (b ++ [x0d; x0a]) = b) /\
  (forall b, last b x00 <> x0d -> removeLastEOL (b ++ [x0a]) = b) /\
  (forall b, removeLastEOL (b ++ [x0d]) = b) /\
  (forall b, last b x00 <> x0d -> last b x00 <> x0a -> removeLastEOL b = b) /\
  (forall n p w p' w' t,
      nulSepOutput p = true ->
      printLoopBody n p w = (Ok tt, p', w', t) ->
      exists writer sep leading encoded,
        t = EvGetWriter (Some n) (Ok writer) :: separatorLog writer sep ++
            [EvPrintLeadingContent ToBuffer (LeadingContent n) leading None;
             EvEncode ToBuffer n encoded None;
             EvWrite writer (removeLastEOL (leading ++ encoded)) None;
             EvWrite writer [x00] None;
             EvFlush writer None]).
Proof.
  split; [exact removeLastEOL_crlf|].
  split; [exact removeLastEOL_lf|].
  split; [exact removeLastEOL_cr|].
  split; [exact removeLastEOL_other|].
  intros n p w p' w' t Hnul Hrun.
  apply printLoopBody_turn in Hrun.
  destruct (turn_nul_frame _ _ _ _ Hrun Hnul) as (f & <- & -> & _).
  exists (fWriter f), (fSeparator f), (fLeading f), (fEncoded f). reflexivity.
Qed.

(** *** A NUL byte in a record *)

Lemma cons_eq_split {A} (x : A) t t1 a b t2 :
  x :: t = t1 ++ a :: b :: t2 ->
  (t1 = [] /\ x = a /\ t = b :: t2) \/
  (exists t1', t1 = x :: t1' /\ t = t1' ++ a :: b :: t2).
Proof.
  destruct t1 as [|y t1]; simpl; intros E; inversion E; subst; eauto.
Qed.

Lemma nil_eq_split {A} t1 (a b : A) t2 : [] = t1 ++ a :: b :: t2 -> False.
Proof. destruct t1; discriminate. Qed.

(** Looks for two calls in a row in a log that is a list of known calls. *)
Ltac find_pair :=
  repeat match goal with
    | E : [] = _ ++ _ :: _ :: _ |- _ => destruct (nil_eq_split _ _ _ _ E)
    | E : _ :: _ = _ ++ _ :: _ :: _ |- _ =>
        apply cons_eq_split in E;
        destruct E as [(-> & ? & ?) | (? & -> & E)]
    end.

Lemma turn_nul_conflict n p r p' t t1 t2 c l m e :
  turn n p r p' t -> nulSepOutput p = true ->
  t = t1 ++ EvPrintLeadingContent ToBuffer c l None
         :: EvEncode ToBuffer m e None :: t2 ->
  hasNul (removeLastEOL (l ++ e)) = true ->
  r = Err nulCharError /\ t2 = [].
Proof.
  intros Ht Hnul E Hhas.
  destruct Ht; unfold encodingLog, separatorLog, recordLog, destinationOf in E;
    rewrite ?Hnul in E;
    repeat match goal with sep : option (list byte) |- _ => destruct sep end;
    simpl in E; find_pair; try discriminate;
    repeat match goal with
      | E' : _ :: _ = _ :: _ |- _ => inversion E'; subst; clear E'
      | E' : _ = _ :> event |- _ => inversion E'; subst; clear E'
      end;
    try discriminate; try (split; [reflexivity|]; auto; fail);
    match goal with Hfree : _ -> hasNul _ = false |- _ =>
      specialize (Hfree Hnul) | _ => idtac end;
    try congruence.
Qed.

Lemma turn_ok_last n p p' t :
  turn n p (Ok tt) p' t -> exists t0 writer, t = t0 ++ [EvFlush writer None].
Proof.
  intros Ht.
  inversion Ht as [| | | | | | | |writer sep leading encoded err Hsep Hfree E];
    subst.
  destruct err; [discriminate|].
  exists (encodingLog p n writer sep leading encoded None
          ++ recordLog p writer leading encoded), writer.
  now rewrite <- app_assoc.
Qed.

Lemma turns_nul_conflict ms p r p' t :
  turns ms p r p' t -> nulSepOutput p = true ->
  forall t1 t2 c l m e,
    t = t1 ++ EvPrintLeadingContent ToBuffer c l None
           :: EvEncode ToBuffer m e None :: t2 ->
    hasNul (removeLastEOL (l ++ e)) = true ->
    r = Err nulCharError /\ t2 = [].
Proof.
  induction 1 as [p|n ms p p1 ta r p' tb Ht Hts IH|n ms p r p' t Ht Hne];
    intros Hnul t1 t2 c l m e E Hhas.
  - destruct (nil_eq_split _ _ _ _ E).
  - assert (Hnul1 : nulSepOutput p1 = true)
      by (apply turn_keeps in Ht; intuition congruence).
    apply app_eq_app in E. destruct E as (mid & [[Ea Eb]|[Ea Eb]]).
    + (* the pair starts in the log of the first turn *)
      destruct mid as [|x [|y mid]].
      * simpl in Eb.
        apply (IH Hnul1 [] t2 c l m e); [simpl; congruence|assumption].
      * destruct (turn_ok_last _ _ _ _ Ht) as (t0 & writer & Elast).
        rewrite Ea in Elast. simpl in Eb. inversion Eb; subst.
        apply app_inj_tail in Elast. destruct Elast as [_ Elast].
        discriminate Elast.
      * simpl in Eb. inversion Eb; subst.
        destruct (turn_nul_conflict _ _ _ _ _ _ _ _ _ _ _ Ht Hnul eq_refl Hhas)
          as [Hr _].
        discriminate Hr.
    + (* it lies in the log of the turns that follow *)
      apply (IH Hnul1 mid t2 c l m e); assumption.
  - eapply turn_nul_conflict; eauto.
Qed.

Lemma printed_nul_conflict ms p w r p' t :
  printed ms p w r p' t -> nulSepOutput p = true ->
  forall t1 t2 c l m e,
    t = t1 ++ EvPrintLeadingContent ToBuffer c l None
           :: EvEncode ToBuffer m e None :: t2 ->
    hasNul (removeLastEOL (l ++ e)) = true ->
    r = Err nulCharError /\ t2 = [].
Proof.
  intros Hp Hnul t1 t2 c l m e E Hhas.
  assert (Hprimed : forall es, nulSepOutput (primed p es) = true).
  { intros es. destruct (primed_keeps p es) as (_ & -> & _). assumption. }
  assert (Hloop : forall es t',
             explodeLog p ms es ++ t' = t1 ++ EvPrintLeadingContent ToBuffer c l None
                    :: EvEncode ToBuffer m e None :: t2 ->
             exists t1', t' = t1' ++ EvPrintLeadingContent ToBuffer c l None
                    :: EvEncode ToBuffer m e None :: t2).
  { intros es t' E'. unfold explodeLog in E'.
    destruct (CanHandleAliases (encoder p)); simpl in E'; [eauto|].
    apply cons_eq_split in E'.
    destruct E' as [(_ & Hx & _) | (t1' & _ & E')]; [discriminate|eauto]. }
  destruct Hp as [?|? ? ? ? ?|? ? ? ?|? ? ? ? ?|es r p' t ? ? ? Hts ?
                 |es p1 t r t' ? ? ? Hts Happ];
    try (find_pair; discriminate).
  - destruct (Hloop _ _ E) as (t1' & E').
    eapply turns_nul_conflict; eauto.
  - destruct (Hloop _ _ E) as (t1' & E'). clear E.
    apply app_eq_app in E'. destruct E' as (mid & [[Ea Eb]|[Ea Eb]]).
    + destruct mid as [|x [|y mid]]; simpl in Eb.
      * destruct Happ; inversion Eb.
      * destruct Happ; inversion Eb.
      * inversion Eb; subst.
        destruct (turns_nul_conflict _ _ _ _ _ Hts (Hprimed es)
                    _ _ _ _ _ _ eq_refl Hhas) as [Hr _].
        discriminate Hr.
    + destruct Happ; subst; find_pair; discriminate.
Qed.

(** C4: in NUL-separated mode, as soon as the buffer filled for a node
    (leading content, then the encoded node, both written without error),
    less its trailing line terminator, holds a 0x00 byte, [PrintResults]
    returns the error that names the conflict with NUL-separated output.
    Those two calls are the last of the log: after them nothing is written
    on any sink, no sink is flushed or obtained, no further node is
    looked at. The bytes of the record have gone to the buffer only: what
    the sinks received is what they had received before. *)
Theorem C4_nul_in_record_aborts ms p w r p' w' t t1 t2 c l m e :
  nulSepOutput p = true ->
  PrintResults ms p w = (r, p', w', t) ->
  t = t1 ++ EvPrintLeadingContent ToBuffer c l None
         :: EvEncode ToBuffer m e None :: t2 ->
  hasNul (removeLastEOL (l ++ e)) = true ->
  r = Err nulCharError /\ t2 = [] /\
  forall sel, output sel t = output sel t1.
Proof.
  intros Hnul Hrun E Hhas. apply PrintResults_printed in Hrun.
  destruct (printed_nul_conflict _ _ _ _ _ _ Hrun Hnul _ _ _ _ _ _ E Hhas)
    as [Hr ->].
  repeat split; [assumption|].
  intros sel. subst t. rewrite output_app. simpl. apply app_nil_r.
Qed.

(** C3, as amended: in NUL-separated mode, after a call of [PrintResults]
    that returned no error, the bytes put on a sink are, for each node
    routed to it, in order: the bytes of the document separator when the
    node starts a boundary (the encoder writes them on the sink itself,
    outside the record), then the record, which is the buffer of leading
    content and encoded node less one trailing line terminator and holds
    no 0x00, then exactly one 0x00 byte; and after the last node, the
    appendix when one is piped to that sink. A node starts a boundary, and
    only then are there separator bytes before its record, when its
    document index is not that of the node before it or its file index is
    not the last-seen file index, and its leading content does not start
    with the sentinel; for the first node of the call the indices are the
    printer's last-seen ones, which for a printer that prints for the first
    time are those of that node itself. *)
Theorem C3_nul_separated_stream ms es p w p' w' t :
  nulSepOutput p = true -> ms <> [] -> walks p w ms es ->
  PrintResults ms p w = (Ok tt, p', w', t) ->
  exists fs tail,
    map fNode fs = es /\
    t = explodeLog p ms es ++ flat_map frameLog fs ++ tail /\
    appendixRun p' (Ok tt) tail /\
    Forall (fun f => hasNul (frameRecord f) = false) fs /\
    (if firstTimePrinting p
     then match es with
          | n :: _ => separatorsAtBoundaries (GetDocument n) (GetFileIndex n) fs
          | [] => true
          end
     else separatorsAtBoundaries (previousDocIndex p) (previousFileIndex p) fs)
    = true /\
    forall sel,
      output sel t
      = flat_map (fun f => if sel (fWriter f) then frameBytes f else []) fs
        ++ output sel tail.
Proof.
  intros Hnul Hne Hw Hrun. apply PrintResults_printed in Hrun.
  inversion Hrun as [?|? ? ? ? ?|? ? ? ?|? ? ? ? ?|es' r' p'' t' ? Hw' ? Hts Hr
                    |es' p1 t1 r' tail ? Hw' ? Hts Happ]; subst;
    try congruence.
  rewrite (walks_functional _ _ _ _ _ Hw' Hw) in *.
  assert (Hnul' : nulSepOutput (primed p es) = true).
  { destruct (primed_keeps p es) as (_ & -> & _). assumption. }
  destruct (turns_nul_frames _ _ _ _ Hts Hnul')
    as (fs & Hms & -> & Hfree & Hplaced).
  exists fs, tail. repeat split; auto.
  - now apply separatorsAtBoundaries_primed.
  - intros sel. destruct (explodeLog_log p ms es) as (_ & _ & _ & Hout).
    now rewrite !output_app, Hout, output_frames.
Qed.

End NulRecords.

Section Appendix.
Context `{Externals}.

(** C2, as amended: a call of [PrintResults] on an empty sequence returns
    no error and does nothing at all, also while an appendix is
    registered: no sink is obtained, the appendix is not read, the printer
    is as it was. The appendix is piped to the sink of the nil node at the
    end of a call on a non-empty sequence that returns no error: the last
    three calls of such a call obtain that sink, copy the appendix to it
    and flush it, each without error. *)
Theorem C2_empty_sequence_does_nothing :
  (forall p w, PrintResults [] p w = (Ok tt, p, w, [])) /\
  (forall ms p w p' w' t reader,
      ms <> [] -> appendixReader p = Some reader ->
      PrintResults ms p w = (Ok tt, p', w', t) ->
      exists t0 writer data,
        t = t0 ++ [EvGetWriter None (Ok writer);
                   EvCopy writer reader data None;
                   EvFlush writer None]).
Proof.
  split; [reflexivity|].
  intros ms p w p' w' t reader Hne Hreader Hrun.
  apply PrintResults_printed in Hrun.
  inversion Hrun as [?|? ? ? ? ?|? ? ? ?|? ? ? ? ?|es' r' p'' t' ? Hw' ? Hts Hr
                    |es p1 t1 r' tail ? Hw ? Hts Happ]; subst;
    try congruence.
  assert (Hreader' : appendixReader p' = Some reader).
  { apply turns_keeps in Hts. destruct (primed_keeps p es) as (_ & _ & Hk & _).
    intuition congruence. }
  exists (explodeLog p ms es ++ t1).
  inversion Happ as [Hnone|? ? ?|? ?|? ? ? ? ?|rd writer data err Hrd E];
    subst; try congruence.
  destruct err; [discriminate|].
  exists writer, data. rewrite <- app_assoc.
  replace rd with reader by congruence. reflexivity.
Qed.

End Appendix.

Section Separators.
Context `{Externals}.

Lemma turn_ok_separators n p p' t :
  turn n p (Ok tt) p' t ->
  separatorCount t = (if startsBoundary p n then 1 else 0) /\
  previousDocIndex p' = GetDocument n /\
  previousFileIndex p' = previousFileIndex p.
Proof.
  intros Ht.
  inversion Ht as [| | | | | | | |writer sep leading encoded err Hsep Hfree E];
    subst.
  rewrite <- Hsep. clear Ht Hsep Hfree.
  unfold encodingLog, separatorLog, recordLog.
  destruct sep, (nulSepOutput p); simpl; auto.
Qed.

(** The separators of a loop that returned no error. *)
Lemma turns_separators ms p p' t :
  turns ms p (Ok tt) p' t ->
  separatorCount t = boundaries (previousDocIndex p) (previousFileIndex p) ms.
Proof.
  remember (Ok tt) as r eqn:Hr. intros Hts. revert Hr.
  induction Hts as [p|n ms p p1 t1 r p' t2 Ht Hts IH|n ms p r p' t Ht Hne];
    intros Hr; try subst r.
  - reflexivity.
  - destruct (turn_ok_separators _ _ _ _ Ht) as (Hc & Hdoc & Hfile).
    rewrite separatorCount_app, Hc, IH, Hdoc, Hfile by reflexivity.
    reflexivity.
  - congruence.
Qed.

(** The separators of a call that returned no error: the test of line 189
    compares the file index with that of the first node the printer ever
    walked, not with that of the previous node. *)
Lemma PrintResults_separators ms es p w p' w' t :
  PrintResults ms p w = (Ok tt, p', w', t) -> ms <> [] -> walks p w ms es ->
  separatorCount t
  = boundaries (previousDocIndex (primed p es)) (previousFileIndex (primed p es)) es.
Proof.
  intros Hrun Hne Hw. apply PrintResults_printed in Hrun.
  inversion Hrun as [?|? ? ? ? ?|? ? ? ?|? ? ? ? ?|es' r' p'' t' ? Hw' ? Hts Hr
                    |es' p1 t1 r' tail ? Hw' ? Hts Happ]; subst;
    try congruence.
  rewrite (walks_functional _ _ _ _ _ Hw' Hw) in *.
  destruct (explodeLog_log p ms es) as (_ & _ & Hex & _).
  apply appendixRun_log in Happ. destruct Happ as (_ & _ & _ & Happ).
  rewrite !separatorCount_app, Hex, Happ, (turns_separators _ _ _ _ Hts).
  simpl. lia.
Qed.

(** Within one file the two counts agree. *)
Lemma boundaries_one_file ms : forall doc file,
  (forall n, In n ms -> GetFileIndex n = file) ->
  boundaries doc file ms = transitions doc file ms.
Proof.
  induction ms as [|n ms IH]; intros doc file Hall; [reflexivity|].
  simpl. rewrite IH by (intros; apply Hall; now right).
  rewrite (Hall n) by now left. reflexivity.
Qed.

(** The node that primed the last-seen indices is no boundary. *)
Lemma boundaries_first_node n rest :
  boundaries (GetDocument n) (GetFileIndex n) (n :: rest)
  = boundaries (GetDocument n) (GetFileIndex n) rest.
Proof.
  simpl. now rewrite N.eqb_refl, Z.eqb_refl.
Qed.


End Separators.

(* ===================================================================== *)
(** ** Properties of the output format registry *)
(* ===================================================================== *)

Section RegistryFacts.
Import Registry.

(** What [find] finds is the first element that passes the test. *)
Lemma find_first {A} (test : A -> bool) (l : list A) (x : A) :
  find test l = Some x <->
  exists before after,
    l = before ++ x :: after /\ test x = true /\
    forall y, In y before -> test y = false.
Proof.
  induction l as [|a l IH]; simpl.
  - split; [discriminate|]. intros ([|? ?] & ? & E & _); discriminate.
  - destruct (test a) eqn:Ha.
    + split.
      * intros E; inversion E; subst. exists [], l. simpl. tauto.
      * intros ([|b before] & after & E & Hx & Hbefore); simpl in E;
          inversion E; subst; [reflexivity|].
        rewrite (Hbefore b) in Ha by now left. discriminate.
    + rewrite IH. split.
      * intros (before & after & -> & Hx & Hbefore).
        exists (a :: before), after. simpl. repeat split; auto.
        intros y [<-|Hy]; auto.
      * intros ([|b before] & after & E & Hx & Hbefore); simpl in E;
          inversion E; subst; [congruence|].
        exists before, after. repeat split; auto.
        intros y Hy. apply Hbefore. now right.
Qed.

Lemma find_none_all {A} (test : A -> bool) (l : list A) :
  find test l = None <-> forall y, In y l -> test y = false.
Proof.
  split; [apply find_none|].
  induction l as [|a l IH]; [reflexivity|]. intros Hall. simpl.
  rewrite (Hall a) by now left. apply IH. intros y Hy. apply Hall. now right.
Qed.

Lemma MatchesName_spec f name :
  MatchesName f name = true <->
  FormalName (deref f) = name \/ In name (Names (deref f)).
Proof.
  unfold MatchesName.
  destruct (String.eqb_spec (FormalName (deref f)) name) as [E|E].
  - tauto.
  - rewrite existsb_exists. split.
    + intros (n & Hin & Hn). apply String.eqb_eq in Hn. subst. now right.
    + intros [?|Hin]; [contradiction|].
      exists name. split; [assumption|apply String.eqb_refl].
Qed.

(** C9: the canonical name of a registered format and each of its aliases
    resolve to the same descriptor (to that very format, unless it is one
    of the reserved formats without a name); a descriptor matches a name
    when the name is equal to its canonical name or to one of its aliases,
    nothing less; and resolving a name gives the first descriptor of the
    list, in the order of the declaration, that matches it. *)
Theorem C9_format_resolution :
  (forall f a,
      In f Formats -> In a (Names (deref f)) ->
      OutputFormatFromString (FormalName (deref f)) = OutputFormatFromString a) /\
  (forall f,
      In f Formats -> FormalName (deref f) <> "" ->
      OutputFormatFromString (FormalName (deref f)) = Ok f /\
      forall a, In a (Names (deref f)) -> OutputFormatFromString a = Ok f) /\
  (forall f name,
      MatchesName f name = true <->
      FormalName (deref f) = name \/ In name (Names (deref f))) /\
  (forall name f,
      OutputFormatFromString name = Ok f <->
      exists before after,
        Formats = before ++ f :: after /\ MatchesName f name = true /\
        forall g, In g before -> MatchesName g name = false).
Proof.
  split; [|split; [|split]].
  - intros f a Hf Ha. simpl in Hf.
    repeat (destruct Hf as [<-|Hf]; [simpl in Ha; intuition (subst; reflexivity)|]).
    contradiction.
  - intros f Hf Hname. simpl in Hf.
    repeat (destruct Hf as [<-|Hf];
            [first [ exfalso; apply Hname; reflexivity
                   | split; [reflexivity|];
                     intros a Ha; simpl in Ha; intuition (subst; reflexivity) ]|]).
    contradiction.
  - exact MatchesName_spec.
  - intros name f.
    rewrite <- (find_first (fun printerFormat => MatchesName printerFormat name)).
    unfold OutputFormatFromString.
    destruct (find _ Formats); split; congruence.
Qed.

(** C10: the empty name resolves, without an error, to the first of the
    reserved descriptors, [Base64OutputFormat], whose name is empty and
    whose factory is nil, so that no encoder can be made from it. The
    unknown-format error is returned for the names that no descriptor
    matches and for no other; its message quotes the name and then lists,
    between brackets and separated by bars, the canonical name and, when
    there is one, the first alias of the nine other descriptors and
    nothing for the three reserved ones, whose names are empty and which
    have no alias: no entry of the list is empty. *)
Theorem C10_empty_name_resolves :
  OutputFormatFromString "" = Ok Base64OutputFormat /\
  FormalName (deref Base64OutputFormat) = "" /\
  EncoderFactory (deref Base64OutputFormat) = None /\
  GetConfiguredEncoder Base64OutputFormat = None /\
  (forall name e,
      OutputFormatFromString name = Err e <->
      (forall f, In f Formats -> MatchesName f name = false) /\
      e = ("unknown format '" ++ name ++ "' please use [" ++
           "yaml|y|json|j|props|p|csv|c|tsv|t|xml|x|toml|shell|s|lua|l" ++
           "]")%string) /\
  (forall f, In f [Base64OutputFormat; UriOutputFormat; ShOutputFormat] ->
             FormalName (deref f) = "" /\ Names (deref f) = []) /\
  availableFormats
  = ["yaml"; "y"; "json"; "j"; "props"; "p"; "csv"; "c"; "tsv"; "t";
     "xml"; "x"; "toml"; "shell"; "s"; "lua"; "l"] /\
  ~ In "" availableFormats /\
  GetAvailableOutputFormatString
  = "yaml|y|json|j|props|p|csv|c|tsv|t|xml|x|toml|shell|s|lua|l".
Proof.
  do 4 (split; [reflexivity|]).
  split; [|split; [|split; [reflexivity|split; [|reflexivity]]]].
  - intros name e. unfold OutputFormatFromString.
    destruct (find _ Formats) as [f|] eqn:E.
    + split; [discriminate|]. intros [Hall _].
      apply find_some in E. destruct E as [Hin Hm].
      rewrite (Hall f Hin) in Hm. discriminate.
    + split.
      * intros Ee. split; [now apply find_none_all|].
        inversion Ee. reflexivity.
      * intros [_ ->]. reflexivity.
  - intros f [<-|[<-|[<-|[]]]]; split; reflexivity.
  - vm_compute. intuition discriminate.
Qed.

End RegistryFacts.

(* ===================================================================== *)
(** ** The printer at work on the sample *)
(* ===================================================================== *)

Section SampleRuns.
Import Sample.



(** C2 fails as stated: with an empty sequence and an appendix of four bytes
    registered, the call returns no error but [io.Copy] is never called on
    the appendix and nothing reaches any sink. *)
Lemma C2_appendix_not_piped_on_empty_sequence :
  appendixBytes <> [] /\
  appendixReader appendixPrinter
  = Some appendixBytes /\
  resultOf runEmptyWithAppendix = Ok tt /\
  ~ (exists writer data err,
        In (EvCopy writer appendixBytes data err) (logOf runEmptyWithAppendix)) /\
  output (fun _ => true) (logOf runEmptyWithAppendix) <> appendixBytes.
Proof.
  repeat split; try discriminate.
  intros (writer & data & err & []).
Qed.

Lemma C2_appendix_piped_after_nodes :
  exists t0 writer data,
    logOf runWithAppendix
    = t0 ++ [EvGetWriter None (Ok writer);
             EvCopy writer appendixBytes data None;
             EvFlush writer None].
Proof.
  apply (proj2 (@C2_empty_sequence_does_nothing externals)
           [scalar "a" 0 0]
           appendixPrinter tt
           (printerOf runWithAppendix) (worldOf runWithAppendix)
           (logOf runWithAppendix) appendixBytes).
  - discriminate.
  - reflexivity.
  - reflexivity.
Defined.

(** C3 fails as stated: with two documents in NUL-separated mode and an
    encoder whose document separator is the line [---], the call returns no
    error and the sink receives the separator between the two records. *)
Lemma C3_separator_between_records :
  resultOf runTwoDocumentsNul = Ok tt /\
  output (fun _ => true) (logOf runTwoDocumentsNul)
  = list_byte_of_string "a" ++ [x00] ++ list_byte_of_string "---" ++ [x0a]
    ++ list_byte_of_string "b" ++ [x00] /\
  output (fun _ => true) (logOf runTwoDocumentsNul)
  <> flat_map (fun n => lineRecord n ++ [x00]) twoDocuments.
Proof.
  repeat split. discriminate.
Qed.

Lemma C3_nul_separated_stream_witness :
  exists fs tail,
    map fNode fs = twoDocuments /\
    logOf runTwoDocumentsNul
    = explodeLog nulPrinter
        twoDocuments twoDocuments ++ flat_map frameLog fs ++ tail /\
    appendixRun (printerOf runTwoDocumentsNul) (Ok tt) tail /\
    Forall (fun f => hasNul (frameRecord f) = false) fs /\
    separatorsAtBoundaries 0 0 fs = true /\
    forall sel,
      output sel (logOf runTwoDocumentsNul)
      = flat_map (fun f => if sel (fWriter f) then frameBytes f else []) fs
        ++ output sel tail.
Proof.
  apply (@C3_nul_separated_stream externals twoDocuments twoDocuments
           nulPrinter tt
           (printerOf runTwoDocumentsNul) (worldOf runTwoDocumentsNul)
           (logOf runTwoDocumentsNul)).
  - reflexivity.
  - discriminate.
  - apply walks_same. reflexivity.
  - reflexivity.
Defined.

Lemma C4_nul_in_record_aborts_witness :
  resultOf runNulNode = Err nulCharError /\
  @nil event = [] /\
  forall sel, output sel (logOf runNulNode)
              = output sel [EvGetWriter (Some nulNode) (Ok 0)].
Proof.
  apply (@C4_nul_in_record_aborts externals [nulNode]
           nulPrinter tt
           (resultOf runNulNode) (printerOf runNulNode) (worldOf runNulNode)
           (logOf runNulNode)
           [@EvGetWriter externals (Some nulNode) (Ok 0)] [] "" []
           nulNode (list_byte_of_string (value nulNode) ++ [x0a])).
  - reflexivity.
  - reflexivity.
  - reflexivity.
  - reflexivity.
Defined.

Lemma C5_one_line_terminator_stripped_witness :
  removeLastEOL (list_byte_of_string "value" ++ [x0a]) = list_byte_of_string "value" /\
  removeLastEOL (list_byte_of_string "value") = list_byte_of_string "value" /\
  exists writer sep leading encoded,
    logOf turnCrlf
    = EvGetWriter (Some (scalar "value" 0 0)) (Ok writer)
      :: separatorLog writer sep ++
      [EvPrintLeadingContent ToBuffer "" leading None;
       EvEncode ToBuffer (scalar "value" 0 0) encoded None;
       EvWrite writer (removeLastEOL (leading ++ encoded)) None;
       EvWrite writer [x00] None;
       EvFlush writer None].
Proof.
  destruct (@C5_one_line_terminator_stripped externals)
    as (_ & Hlf & _ & Hother & Hturn).
  split; [|split].
  - apply (Hlf (list_byte_of_string "value")). discriminate.
  - apply (Hother (list_byte_of_string "value")); discriminate.
  - apply (Hturn (scalar "value" 0 0) crlfPrinter tt
             (printerOf turnCrlf) (worldOf turnCrlf) (logOf turnCrlf)).
    + reflexivity.
    + reflexivity.
Defined.

Lemma C6_printed_anything_witness :
  PrintedAnything (printerOf runNullAndFalse) = false /\
  PrintedAnything (printerOf runTwoDocuments) = true /\
  PrintedAnything (printerOf runNullAfterTwoDocuments) = true /\
  PrintedAnything (printerOf runNulNode) = true.
Proof.
  destruct (@C6_printed_anything externals)
    as (_ & Hnone & Hencoded & Hsome & Hstays).
  split; [|split; [|split]]; cycle 3.
  - apply (Hencoded [nulNode] nulPrinter tt
             (resultOf runNulNode) (printerOf runNulNode)
             (worldOf runNulNode) (logOf runNulNode) nulNode).
    + reflexivity.
    + left. reflexivity.
    + intros [Hn|[Hn _]]; discriminate Hn.
  - apply (Hnone [nullNode; falseNode] [nullNode; falseNode]
             (newPrinter (lineEncoder true)) tt
             (resultOf runNullAndFalse) (printerOf runNullAndFalse)
             (worldOf runNullAndFalse) (logOf runNullAndFalse)).
    + reflexivity.
    + apply walks_same. reflexivity.
    + intros n [<-|[<-|[]]]; [left|right]; simpl; auto.
    + reflexivity.
  - apply (Hsome twoDocuments twoDocuments (newPrinter (lineEncoder true)) tt
             (printerOf runTwoDocuments) (worldOf runTwoDocuments)
             (logOf runTwoDocuments) (scalar "a" 0 0)).
    + reflexivity.
    + discriminate.
    + apply walks_same. reflexivity.
    + left. reflexivity.
    + intros [Hn|[Hn _]]; discriminate Hn.
  - apply (Hstays (printerOf runTwoDocuments) (printerOf runNullAfterTwoDocuments)).
    + reflexivity.
    + apply (@later_PrintResults externals [nullNode] (printerOf runTwoDocuments) tt
               (resultOf runNullAfterTwoDocuments)
               (printerOf runNullAfterTwoDocuments)
               (worldOf runNullAfterTwoDocuments)
               (logOf runNullAfterTwoDocuments)).
      * reflexivity.
      * apply later_now.
Defined.

Lemma C7_explode_before_output_witness :
  (exists rx w1 t',
      GetMatchingNodes_explodeOp explodeAliases [scalar "*ref" 0 0] tt = (rx, w1) /\
      logOf runAlias = EvExplode [scalar "*ref" 0 0] rx :: t' /\
      existsb isExplode t' = false /\
      match rx with
      | Ok es =>
          (exists rest, es = routedNodes t' ++ rest /\
                        (resultOf runAlias = Ok tt -> rest = [])) /\
          (exists rest, es = encodedNodes t' ++ rest /\
                        (resultOf runAlias = Ok tt -> rest = []))
      | Err e => resultOf runAlias = Err e /\ t' = [] /\
                 printerOf runAlias = newPrinter (lineEncoder false)
      | Panic => resultOf runAlias = Panic /\ t' = [] /\
                 printerOf runAlias = newPrinter (lineEncoder false)
      end) /\
  (resultOf runExplodeFails = Err "explode failed" /\
   logOf runExplodeFails
   = [EvExplode [scalar "*ref" 0 0] (Err "explode failed")]).
Proof.
  split.
  - apply (@C7_explode_before_output externals [scalar "*ref" 0 0]
             (newPrinter (lineEncoder false)) tt
             (resultOf runAlias) (printerOf runAlias) (worldOf runAlias)
             (logOf runAlias)).
    + reflexivity.
    + discriminate.
    + reflexivity.
  - destruct (@C7_explode_before_output externals [scalar "*ref" 0 0]
                failingPrinter tt
                (resultOf runExplodeFails) (printerOf runExplodeFails)
                (worldOf runExplodeFails) (logOf runExplodeFails))
      as (rx & w1 & t' & Hex & Hlog & _ & Hcase).
    + reflexivity.
    + discriminate.
    + reflexivity.
    + simpl in Hex. inversion Hex; subst rx w1.
      destruct Hcase as (Hr & -> & _). split; assumption.
Defined.

Lemma C8_last_seen_indices_witness :
  previousDocIndex (printerOf turnCrlf) = 0%N /\
  previousFileIndex (printerOf turnCrlf) = previousFileIndex crlfPrinter /\
  previousDocIndex (printerOf runTwoDocuments) = 1%N /\
  (firstTimePrinting (printerOf runTwoDocuments) = false /\
   previousFileIndex (printerOf runTwoDocuments) = 0%Z) /\
  (firstTimePrinting (printerOf runSecondFileLater) = false /\
   previousFileIndex (printerOf runSecondFileLater) = 0%Z).
Proof.
  destruct (@C8_last_seen_indices externals)
    as (Hturn & Hfile & Hdoc & Hfirst & Hlater).
  split; [|split; [|split; [|split]]].
  - apply (Hturn (scalar "value" 0 0) crlfPrinter tt
             (printerOf turnCrlf) (worldOf turnCrlf) (logOf turnCrlf)).
    reflexivity.
  - apply (Hfile (scalar "value" 0 0) crlfPrinter tt (resultOf turnCrlf)
             (printerOf turnCrlf) (worldOf turnCrlf) (logOf turnCrlf)).
    reflexivity.
  - apply (Hdoc twoDocuments twoDocuments (newPrinter (lineEncoder true)) tt
             (printerOf runTwoDocuments) (worldOf runTwoDocuments)
             (logOf runTwoDocuments)).
    + reflexivity.
    + discriminate.
    + apply walks_same. reflexivity.
  - apply (Hfirst twoDocuments (scalar "a" 0 0) [scalar "b" 1 0]
             (newPrinter (lineEncoder true)) tt
             (resultOf runTwoDocuments) (printerOf runTwoDocuments)
             (worldOf runTwoDocuments) (logOf runTwoDocuments)).
    + reflexivity.
    + reflexivity.
    + discriminate.
    + apply walks_same. reflexivity.
  - apply (Hlater (printerOf runTwoDocuments) (printerOf runSecondFileLater)).
    + reflexivity.
    + apply (@later_PrintResults externals [scalar "z" 5 7] (printerOf runTwoDocuments) tt
               (resultOf runSecondFileLater) (printerOf runSecondFileLater)
               (worldOf runSecondFileLater) (logOf runSecondFileLater)).
      * reflexivity.
      * apply later_now.
Defined.

End SampleRuns.

Section RegistryRuns.
Import Registry.

Lemma C9_format_resolution_witness :
  OutputFormatFromString "yaml" = OutputFormatFromString "yml" /\
  (OutputFormatFromString "props" = Ok PropsOutputFormat /\
   forall a, In a ["p"; "properties"] -> OutputFormatFromString a = Ok PropsOutputFormat).
Proof.
  destruct C9_format_resolution as (Hsame & Hself & _ & _).
  split.
  - apply (Hsame YamlOutputFormat "yml").
    + simpl. auto.
    + simpl. auto.
  - apply (Hself PropsOutputFormat).
    + simpl. auto.
    + discriminate.
Defined.

Lemma C10_empty_name_resolves_witness :
  OutputFormatFromString "ym"
  = Err ("unknown format 'ym' please use " ++
         "[yaml|y|json|j|props|p|csv|c|tsv|t|xml|x|toml|shell|s|lua|l]")%string.
Proof.
  destruct C10_empty_name_resolves as (_ & _ & _ & _ & Hunknown & _).
  apply (proj2 (Hunknown "ym" _)).
  split; [|reflexivity].
  intros f Hf. simpl in Hf.
  repeat (destruct Hf as [<-|Hf]; [reflexivity|]).
  destruct Hf.
Defined.

End RegistryRuns.

(* ===================================================================== *)
(** ** Further properties *)
(* ===================================================================== *)

(** *** What [removeLastEOL] takes off *)

Section StrippedTail.

Lemma removeLastEOL_tail b :
  exists tail,
    b = removeLastEOL b ++ tail /\
    (tail = [] \/ tail = [x0d] \/ tail = [x0a] \/ tail = [x0d; x0a]).
Proof.
  destruct b as [|x b' _] using rev_ind.
  - exists []. auto.
  - rewrite removeLastEOL_snoc.
    destruct (Nat.leb 1 (length b') && Byte.eqb (last b' x00) x0d
              && Byte.eqb x x0a) eqn:Epair.
    + apply andb_prop in Epair. destruct Epair as [Epair Elf].
      apply andb_prop in Epair. destruct Epair as [Elen Ecr].
      apply Byte.byte_dec_bl in Elf. apply Byte.byte_dec_bl in Ecr.
      destruct b' as [|y b'' _] using rev_ind; [discriminate|].
      rewrite last_last in Ecr. subst x y. rewrite removelast_last.
      exists [x0d; x0a]. rewrite <- app_assoc. auto.
    + destruct (Byte.eqb x x0d) eqn:Ecr.
      * apply Byte.byte_dec_bl in Ecr. subst. exists [x0d]. auto.
      * destruct (Byte.eqb x x0a) eqn:Elf.
        -- apply Byte.byte_dec_bl in Elf. subst. exists [x0a]. auto.
        -- exists []. rewrite app_nil_r. auto.
Qed.

(** X1: [removeLastEOL] only ever takes off the end of the buffer, and what
    it takes off is nothing, one CR, one LF, or CR LF; so the buffer
    becomes shorter by two bytes at most, and the stripped buffer holds a
    0x00 byte exactly when the buffer does: stripping neither hides a NUL
    from the test that follows it nor brings one in. *)
Theorem X1_stripping_keeps_the_rest b :
  (exists tail,
      b = removeLastEOL b ++ tail /\
      (tail = [] \/ tail = [x0d] \/ tail = [x0a] \/ tail = [x0d; x0a])) /\
  length b - 2 <= length (removeLastEOL b) <= length b /\
  hasNul (removeLastEOL b) = hasNul b.
Proof.
  destruct (removeLastEOL_tail b) as (tail & E & Htail).
  split; [eauto|]. split.
  - rewrite E at 1 4. rewrite length_app.
    destruct Htail as [-> | [-> | [-> | ->]]]; simpl; lia.
  - unfold hasNul. rewrite E at 2. rewrite existsb_app.
    destruct Htail as [-> | [-> | [-> | ->]]]; simpl; now rewrite orb_false_r.
Qed.

End StrippedTail.

(** *** Names in the registry *)

Section RegistryNames.
Import Registry.

Lemma matching_names f name :
  MatchesName f name = true ->
  name = FormalName (deref f) \/ In name (Names (deref f)).
Proof.
  intros Hm. apply MatchesName_spec in Hm. destruct Hm; auto.
Qed.

(** X2: no name but the empty one is shared: a non-empty name is matched by
    one registered descriptor at most. So resolving a non-empty name does
    not depend on the order of the list: it gives a descriptor exactly when
    that descriptor is registered and matches. *)
Theorem X2_names_are_unique :
  (forall f g name,
      In f Formats -> In g Formats -> name <> "" ->
      MatchesName f name = true -> MatchesName g name = true -> f = g) /\
  (forall f name,
      name <> "" ->
      (OutputFormatFromString name = Ok f <->
       In f Formats /\ MatchesName f name = true)).
Proof.
  assert (Hunique : forall f g name,
             In f Formats -> In g Formats -> name <> "" ->
             MatchesName f name = true -> MatchesName g name = true -> f = g).
  { intros f g name _ _ Hname Hf Hg.
    apply matching_names in Hf.
    destruct f; simpl in Hf;
      repeat (destruct Hf as [Hf|Hf]; try contradiction; try subst name);
      try congruence;
      destruct g; simpl in Hg; try discriminate; reflexivity. }
  split; [exact Hunique|].
  intros f name Hname. split.
  - unfold OutputFormatFromString.
    destruct (find _ Formats) as [g|] eqn:E; [|discriminate].
    intros Hr. inversion Hr; subst g. now apply find_some in E.
  - intros [Hin Hm]. unfold OutputFormatFromString.
    destruct (find _ Formats) as [g|] eqn:E.
    + apply find_some in E. destruct E as [Hg Hmg].
      f_equal. eapply Hunique; eauto.
    + rewrite (find_none _ _ E f Hin) in Hm. discriminate.
Qed.

(** X3: every name that [GetAvailableOutputFormatString] lists resolves,
    and to a descriptor with an encoder factory; more generally a
    non-empty name never resolves to a descriptor whose factory is nil, so
    [GetConfiguredEncoder] is safe on the result; and every registered
    descriptor that has a canonical name is listed under it. *)
Theorem X3_listed_names_resolve :
  (forall name,
      In name availableFormats ->
      exists f, OutputFormatFromString name = Ok f /\
                GetConfiguredEncoder f <> None) /\
  (forall name f,
      name <> "" -> OutputFormatFromString name = Ok f ->
      GetConfiguredEncoder f <> None) /\
  (forall f,
      In f Formats -> FormalName (deref f) <> "" ->
      In (FormalName (deref f)) availableFormats).
Proof.
  split; [|split].
  - intros name Hin. vm_compute in Hin.
    repeat (destruct Hin as [<-|Hin];
            [eexists; split; [reflexivity|discriminate]|]).
    contradiction.
  - intros name f Hname. unfold OutputFormatFromString.
    destruct (find _ Formats) as [g|] eqn:E; [|discriminate].
    intros Hr. inversion Hr; subst g. apply find_some in E.
    destruct E as [_ Hm]. apply matching_names in Hm.
    destruct f; simpl in Hm; try discriminate;
      destruct Hm as [Hm|[]]; congruence.
  - intros f Hin Hname. simpl in Hin.
    repeat (destruct Hin as [<-|Hin];
            [first [ exfalso; apply Hname; reflexivity
                   | vm_compute; tauto ]|]).
    contradiction.
Qed.

Lemma X2_names_are_unique_witness :
  ShellVariablesOutputFormat = ShellVariablesOutputFormat /\
  OutputFormatFromString "sh" = Ok ShellVariablesOutputFormat.
Proof.
  destruct X2_names_are_unique as [Hunique Hresolve].
  split.
  - apply (Hunique ShellVariablesOutputFormat ShellVariablesOutputFormat "sh").
    + simpl. tauto.
    + simpl. tauto.
    + discriminate.
    + reflexivity.
    + reflexivity.
  - apply (proj2 (Hresolve ShellVariablesOutputFormat "sh" ltac:(discriminate))).
    split; [simpl; tauto|reflexivity].
Defined.

Lemma X3_listed_names_resolve_witness :
  (exists f, OutputFormatFromString "lua" = Ok f /\
             GetConfiguredEncoder f <> None) /\
  GetConfiguredEncoder TSVOutputFormat <> None /\
  In "toml" availableFormats.
Proof.
  destruct X3_listed_names_resolve as (Hlisted & Hfactory & Hnamed).
  split; [|split].
  - apply (Hlisted "lua"). vm_compute. tauto.
  - apply (Hfactory "t" TSVOutputFormat); [discriminate|reflexivity].
  - apply (Hnamed TomlOutputFormat); [simpl; tauto|discriminate].
Defined.

End RegistryNames.

(** *** The printer's state over a call *)

Section MorePrinterFacts.
Context `{Externals}.

Ltac open_turn_log :=
  unfold encodingLog, separatorLog, recordLog, marked in *;
  repeat match goal with
    | sep : option (list byte) |- _ => destruct sep
    | err : option error |- _ => destruct err
    | |- context [nulSepOutput ?p] => destruct (nulSepOutput p)
    end;
  simpl in *.

Lemma turn_printerWriter n p r p' t :
  turn n p r p' t -> printerWriter p' = printerWriter p.
Proof. destruct 1; reflexivity. Qed.

Lemma turns_printerWriter ms p r p' t :
  turns ms p r p' t -> printerWriter p' = printerWriter p.
Proof.
  induction 1 as [p|n ms p p1 t1 r p' t2 Ht _ IH|n ms p r p' t Ht _].
  - reflexivity.
  - apply turn_printerWriter in Ht. congruence.
  - now apply turn_printerWriter in Ht.
Qed.

Lemma primed_config p es :
  encoder (primed p es) = encoder p /\
  printerWriter (primed p es) = printerWriter p /\
  treeNavigator (primed p es) = treeNavigator p /\
  appendixReader (primed p es) = appendixReader p /\
  nulSepOutput (primed p es) = nulSepOutput p.
Proof.
  unfold primed. destruct es; [auto|]. destruct (firstTimePrinting p); auto.
Qed.

Lemma turns_config es p r p' t :
  turns es p r p' t ->
  encoder p' = encoder p /\ printerWriter p' = printerWriter p /\
  treeNavigator p' = treeNavigator p /\
  appendixReader p' = appendixReader p /\ nulSepOutput p' = nulSepOutput p.
Proof.
  intros Hts. pose proof (turns_printerWriter _ _ _ _ _ Hts).
  apply turns_keeps in Hts. tauto.
Qed.

Lemma primed_not_first p es :
  (firstTimePrinting p = true -> es <> []) ->
  firstTimePrinting (primed p es) = false.
Proof.
  intros Hfront. unfold primed.
  destruct (firstTimePrinting p) eqn:Hf.
  - destruct es; [now destruct Hfront|reflexivity].
  - destruct es; assumption.
Qed.

(** X4: a call of [PrintResults], whatever it returns, leaves the encoder,
    the writer provider, the tree navigator, the appendix reader and the
    NUL-separated mode of the printer as they were. And as long as the
    printer still says that it prints for the first time, nothing has
    happened to it: it is in the state it was in, and no node was handed
    to the writer provider or to the encoder. *)
Theorem X4_settings_kept ms p w r p' w' t :
  PrintResults ms p w = (r, p', w', t) ->
  (encoder p' = encoder p /\ printerWriter p' = printerWriter p /\
   treeNavigator p' = treeNavigator p /\
   appendixReader p' = appendixReader p /\
   nulSepOutput p' = nulSepOutput p) /\
  (firstTimePrinting p' = true ->
   p' = p /\ routedNodes t = [] /\ encodedNodes t = []).
Proof.
  intros Hrun. apply PrintResults_printed in Hrun.
  destruct Hrun as [?|? ? ? ? ?|? ? ? ?|? ? ? ? ?|es r p' t ? Hw Hfront Hts ?
                   |es p1 t r t' ? Hw Hfront Hts Happ];
    try (split; [auto 10|intros _; auto]; fail).
  - split.
    + destruct (turns_config _ _ _ _ _ Hts) as (? & ? & ? & ? & ?).
      destruct (primed_config p es) as (? & ? & ? & ? & ?).
      repeat split; congruence.
    + intros Hf. apply turns_keeps in Hts. destruct Hts as (Hf' & _).
      rewrite (primed_not_first _ _ Hfront) in Hf'. congruence.
  - split.
    + destruct (turns_config _ _ _ _ _ Hts) as (? & ? & ? & ? & ?).
      destruct (primed_config p es) as (? & ? & ? & ? & ?).
      repeat split; congruence.
    + intros Hf. apply turns_keeps in Hts. destruct Hts as (Hf' & _).
      rewrite (primed_not_first _ _ Hfront) in Hf'. congruence.
Qed.

(** *** Plain output *)

Lemma turn_plain_frame n p p' t :
  turn n p (Ok tt) p' t -> nulSepOutput p = false ->
  exists f,
    fNode f = n /\ t = plainLog f /\
    isSome (fSeparator f) = startsBoundary p n.
Proof.
  intros Ht Hnul.
  inversion Ht as [| | | | | | | |writer sep leading encoded err Hsep Hfree E];
    subst.
  destruct err; [discriminate|].
  exists {| fNode := n; fWriter := writer; fSeparator := sep;
            fLeading := leading; fEncoded := encoded |}.
  unfold plainLog, encodingLog, recordLog, destinationOf.
  rewrite Hnul. simpl. rewrite <- !app_assoc. simpl. auto.
Qed.

Lemma turns_plain_frames ms p p' t :
  turns ms p (Ok tt) p' t -> nulSepOutput p = false ->
  exists fs,
    map fNode fs = ms /\ t = flat_map plainLog fs /\
    separatorsAtBoundaries (previousDocIndex p) (previousFileIndex p) fs = true.
Proof.
  remember (Ok tt) as r eqn:Hr. intros Hts. revert Hr.
  induction Hts as [p|n ms p p1 t1 r p' t2 Ht Hts IH|n ms p r p' t Ht Hne];
    intros Hr Hnul; try subst r.
  - exists []. auto.
  - destruct (turn_plain_frame _ _ _ _ Ht Hnul) as (f & Hn & Hlog & Hsep).
    destruct IH as (fs & Hms & Hlogs & Hplaced); [reflexivity| |].
    { apply turn_keeps in Ht. intuition congruence. }
    exists (f :: fs). subst. repeat split.
    apply (separatorsAtBoundaries_cons f fs p p1); auto.
    + eapply turn_ok_document; eauto.
    + apply turn_keeps in Ht. tauto.
  - congruence.
Qed.

Lemma output_plainLog sel f :
  output sel (plainLog f) = if sel (fWriter f) then plainBytes f else [].
Proof.
  unfold plainLog, plainBytes, separatorLog.
  destruct (fSeparator f); simpl; destruct (sel (fWriter f)); simpl;
    rewrite ?app_nil_r; reflexivity.
Qed.

Lemma output_plain_frames sel fs :
  output sel (flat_map plainLog fs)
  = flat_map (fun f => if sel (fWriter f) then plainBytes f else []) fs.
Proof.
  induction fs as [|f fs IH]; [reflexivity|].
  change (flat_map plainLog (f :: fs)) with (plainLog f ++ flat_map plainLog fs).
  rewrite output_app, output_plainLog, IH. reflexivity.
Qed.

Lemma plain_frames_no_write fs :
  existsb isWrite (flat_map plainLog fs) = false.
Proof.
  induction fs as [|f fs IH]; [reflexivity|].
  change (flat_map plainLog (f :: fs)) with (plainLog f ++ flat_map plainLog fs).
  rewrite existsb_app, IH. unfold plainLog, separatorLog.
  destruct (fSeparator f); reflexivity.
Qed.

(** X5: when NUL-separated mode is off, after a call of [PrintResults] that
    returned no error, what a sink received is, for each node routed to it
    and in the order of the sequence, what the encoder wrote for the
    document separator when the node starts a boundary, for the leading
    content, and for the node, one after the other and untouched, and after
    the last node the appendix when one is piped to that sink. The printer
    itself never calls [Write] on a sink. A node starts a boundary, and
    only then did the encoder write a separator for it, when its document
    index is not that of the node before it or its file index is not the
    last-seen file index, and its leading content does not start with the
    sentinel; for the first node of the call the indices are the printer's
    last-seen ones, which for a printer that prints for the first time are
    those of that node itself. *)
Theorem X5_plain_stream ms es p w p' w' t :
  nulSepOutput p = false -> ms <> [] -> walks p w ms es ->
  PrintResults ms p w = (Ok tt, p', w', t) ->
  exists fs tail,
    map fNode fs = es /\
    t = explodeLog p ms es ++ flat_map plainLog fs ++ tail /\
    appendixRun p' (Ok tt) tail /\
    existsb isWrite t = false /\
    (if firstTimePrinting p
     then match es with
          | n :: _ => separatorsAtBoundaries (GetDocument n) (GetFileIndex n) fs
          | [] => true
          end
     else separatorsAtBoundaries (previousDocIndex p) (previousFileIndex p) fs)
    = true /\
    forall sel,
      output sel t
      = flat_map (fun f => if sel (fWriter f) then plainBytes f else []) fs
        ++ output sel tail.
Proof.
  intros Hnul Hne Hw Hrun. apply PrintResults_printed in Hrun.
  inversion Hrun as [?|? ? ? ? ?|? ? ? ?|? ? ? ? ?|es' r' p'' t' ? Hw' ? Hts Hr
                    |es' p1 t1 r' tail ? Hw' ? Hts Happ]; subst;
    try congruence.
  rewrite (walks_functional _ _ _ _ _ Hw' Hw) in *.
  assert (Hnul' : nulSepOutput (primed p es) = false).
  { destruct (primed_keeps p es) as (_ & -> & _). assumption. }
  destruct (turns_plain_frames _ _ _ _ Hts Hnul') as (fs & Hms & -> & Hplaced).
  exists fs, tail. repeat split; auto.
  - rewrite !existsb_app, plain_frames_no_write.
    unfold explodeLog. destruct (CanHandleAliases (encoder p));
      inversion Happ; reflexivity.
  - now apply separatorsAtBoundaries_primed.
  - intros sel. destruct (explodeLog_log p ms es) as (_ & _ & _ & Hout).
    now rewrite !output_app, Hout, output_plain_frames.
Qed.

(** *** Errors *)

Lemma clean_app t1 t2 : clean (t1 ++ t2) <-> clean t1 /\ clean t2.
Proof. apply Forall_app. Qed.

Ltac pick_last :=
  match goal with
  | |- exists t0 ev, (?a :: ?l) = t0 ++ [ev] /\ _ =>
      exists (removelast (a :: l)), (last (a :: l) a); simpl
  end.

Ltac all_clean := unfold clean; repeat constructor.

Lemma turn_accounted n p r p' t :
  turn n p r p' t -> accountedFor (nulSepOutput p) r t.
Proof.
  intros Ht. unfold accountedFor.
  destruct Ht;
    unfold encodingLog, separatorLog, recordLog, destinationOf;
    repeat match goal with
      | sep : option (list byte) |- _ => destruct sep
      | err : option error |- _ => destruct err
      end;
    destruct (nulSepOutput p) eqn:Hnul; try discriminate; simpl;
    first
      [ solve [left; split; [reflexivity|all_clean]]
      | solve [right; left; split; [discriminate|];
               pick_last; repeat split; all_clean]
      | right; right; repeat split; try reflexivity; try all_clean;
        match goal with
        | |- exists t0 c l n e, [?a; ?b; ?x; ?y] = _ /\ _ =>
            exists [a; b]; do 4 eexists; split; [reflexivity|eassumption]
        | |- exists t0 c l n e, [?a; ?x; ?y] = _ /\ _ =>
            exists [a]; do 4 eexists; split; [reflexivity|eassumption]
        end ].
Qed.

Lemma accounted_after nul r t1 t2 :
  clean t1 -> accountedFor nul r t2 -> accountedFor nul r (t1 ++ t2).
Proof.
  intros Hc [[-> Hc2]|[(Hr & t0 & ev & -> & Hc0 & Hev)
                      |(-> & -> & Hc2 & t0 & c & l & n & e & -> & Hhas)]].
  - left. split; [reflexivity|]. now apply clean_app.
  - right; left. split; [assumption|].
    exists (t1 ++ t0), ev. rewrite app_assoc. repeat split; auto.
    now apply clean_app.
  - right; right. repeat split; auto.
    + now apply clean_app.
    + exists (t1 ++ t0), c, l, n, e. rewrite app_assoc. auto.
Qed.

Lemma turn_ok_clean n p p' t : turn n p (Ok tt) p' t -> clean t.
Proof.
  intros Ht. apply turn_accounted in Ht.
  destruct Ht as [[_ Hc]|[(Hr & _)|(Hr & _)]]; [assumption|congruence|discriminate].
Qed.

Lemma turns_accounted ms p r p' t :
  turns ms p r p' t -> accountedFor (nulSepOutput p) r t.
Proof.
  induction 1 as [p|n ms p p1 t1 r p' t2 Ht _ IH|n ms p r p' t Ht _].
  - left. split; [reflexivity|constructor].
  - apply accounted_after; [eapply turn_ok_clean; eauto|].
    apply turn_keeps in Ht. destruct Ht as (_ & _ & <- & _). assumption.
  - eapply turn_accounted; eauto.
Qed.

Lemma appendix_accounted nul p r t :
  appendixRun p r t -> accountedFor nul r t.
Proof.
  destruct 1 as [?|? ? ?|? ?|? ? ? ? ?|? ? ? [e|] ?]; unfold accountedFor;
    first [ solve [left; split; [reflexivity|all_clean]]
          | solve [right; left; split; [discriminate|];
                   pick_last; repeat split; all_clean] ].
Qed.

Lemma explodeLog_clean p ms es : clean (explodeLog p ms es).
Proof.
  unfold explodeLog. destruct (CanHandleAliases (encoder p)); all_clean.
Qed.

(** X6: the calls account for what [PrintResults] returns. It returns no
    error only when none of its calls failed. When it returns an error or
    panics, the call that failed is the last call it made, no call before
    it had failed, and the error returned is the error of that call,
    unchanged. The two exceptions are of the printer's own making: the
    error for a 0x00 byte in a record, in NUL-separated mode only, right
    after the record was buffered; and the panic of a printer that prints
    for the first time when the explode operation answers with an empty
    list. *)
Theorem X6_first_failure_is_returned ms p w r p' w' t :
  PrintResults ms p w = (r, p', w', t) ->
  accountedFor (nulSepOutput p) r t \/
  (r = Panic /\ firstTimePrinting p = true /\
   CanHandleAliases (encoder p) = false /\ t = [EvExplode ms (Ok [])]).
Proof.
  intros Hrun. apply PrintResults_printed in Hrun.
  destruct Hrun as [?|? ? ? ? ?|? ? ? ?|? ? ? ? ?|es r p' t ? Hw Hfront Hts ?
                   |es p1 t r t' ? Hw Hfront Hts Happ].
  - left. left. split; [reflexivity|constructor].
  - left. right; left. split; [discriminate|].
    pick_last. repeat split. constructor.
  - left. right; left. split; [discriminate|].
    pick_last. repeat split. constructor.
  - right. auto.
  - left. apply accounted_after; [apply explodeLog_clean|].
    destruct (primed_keeps p es) as (_ & <- & _).
    eapply turns_accounted; eauto.
  - left. apply accounted_after; [apply explodeLog_clean|].
    apply accounted_after; [|eapply appendix_accounted; eauto].
    apply turns_accounted in Hts.
    destruct Hts as [[_ Hc]|[(Hr & _)|(Hr & _)]];
      [assumption|congruence|discriminate].
Qed.

(** *** Sinks *)

Lemma disciplined_app held t1 held1 t2 held2 :
  disciplined held t1 held1 -> disciplined held1 t2 held2 ->
  disciplined held (t1 ++ t2) held2.
Proof.
  induction 1; intros Hrest; simpl; eauto using disciplined.
Qed.

Ltac keep_discipline :=
  repeat first
    [ apply disciplined_obtained
    | apply disciplined_refused; [intros ? ?; discriminate|]
    | apply disciplined_flush
    | apply disciplined_explode
    | eapply disciplined_bytes; [reflexivity|]
    | apply disciplined_buffer; [reflexivity|] ];
  apply disciplined_done.

Lemma turn_disciplined n p r p' t :
  turn n p r p' t ->
  exists held, disciplined None t held /\ (r = Ok tt -> held = None).
Proof.
  destruct 1;
    unfold encodingLog, separatorLog, recordLog, destinationOf;
    repeat match goal with
      | sep : option (list byte) |- _ => destruct sep
      | err : option error |- _ => destruct err
      end;
    destruct (nulSepOutput p); simpl;
    eexists; (split; [keep_discipline|]);
    first [reflexivity|discriminate|intros; reflexivity|intros; discriminate].
Qed.

Lemma turns_disciplined ms p r p' t :
  turns ms p r p' t ->
  exists held, disciplined None t held /\ (r = Ok tt -> held = None).
Proof.
  induction 1 as [p|n ms p p1 t1 r p' t2 Ht _ IH|n ms p r p' t Ht _].
  - exists None. split; [constructor|reflexivity].
  - destruct (turn_disciplined _ _ _ _ _ Ht) as (held1 & Hd1 & Hnone).
    rewrite (Hnone eq_refl) in Hd1.
    destruct IH as (held & Hd & Hok). exists held.
    split; [eapply disciplined_app; eauto|assumption].
  - eapply turn_disciplined; eauto.
Qed.

Lemma appendix_disciplined p r t :
  appendixRun p r t ->
  exists held, disciplined None t held /\ (r = Ok tt -> held = None).
Proof.
  destruct 1 as [?|? ? ?|? ?|? ? ? ? ?|? ? ? [e|] ?];
    eexists; (split; [keep_discipline|]);
    first [reflexivity|discriminate|intros; reflexivity|intros; discriminate].
Qed.

Lemma explodeLog_disciplined p ms es :
  disciplined None (explodeLog p ms es) None.
Proof.
  unfold explodeLog. destruct (CanHandleAliases (encoder p)); keep_discipline.
Qed.

(** X7: [PrintResults] keeps to a discipline on the sinks, whatever it
    returns. It obtains a sink only when the sink it obtained before has
    been flushed; whatever reaches a sink (from the encoder, from the
    printer in NUL-separated mode, from the appendix) reaches the sink
    obtained last and not yet flushed, never another one; and what it
    flushes is that same sink. After a call that returned no error every
    sink obtained has been flushed. *)
Theorem X7_one_sink_at_a_time ms p w r p' w' t :
  PrintResults ms p w = (r, p', w', t) ->
  exists held, disciplined None t held /\ (r = Ok tt -> held = None).
Proof.
  intros Hrun. apply PrintResults_printed in Hrun.
  destruct Hrun as [?|? ? ? ? ?|? ? ? ?|? ? ? ? ?|es r p' t ? Hw Hfront Hts ?
                   |es p1 t r t' ? Hw Hfront Hts Happ].
  - exists None. split; [constructor|reflexivity].
  - exists None. split; [keep_discipline|reflexivity].
  - exists None. split; [keep_discipline|reflexivity].
  - exists None. split; [keep_discipline|reflexivity].
  - destruct (turns_disciplined _ _ _ _ _ Hts) as (held & Hd & Hok).
    exists held. split; [|assumption].
    eapply disciplined_app; [apply explodeLog_disciplined|eassumption].
  - destruct (turns_disciplined _ _ _ _ _ Hts) as (held1 & Hd1 & Hnone).
    rewrite (Hnone eq_refl) in Hd1.
    destruct (appendix_disciplined _ _ _ Happ) as (held & Hd & Hok).
    exists held. split; [|assumption].
    eapply disciplined_app; [apply explodeLog_disciplined|].
    eapply disciplined_app; eassumption.
Qed.

(** *** Batches *)

Lemma forEach_app {A} (body : A -> M unit) l1 l2 p w :
  forEach body (l1 ++ l2) p w
  = match forEach body l1 p w with
    | (Ok _, p1, w1, t1) =>
        let '(r2, p2, w2, t2) := forEach body l2 p1 w1 in
        (r2, p2, w2, t1 ++ t2)
    | (Err e, p1, w1, t1) => (Err e, p1, w1, t1)
    | (Panic, p1, w1, t1) => (Panic, p1, w1, t1)
    end.
Proof.
  revert p w. induction l1 as [|a l1 IH]; intros p w.
  - simpl. unfold ret. now destruct (forEach body l2 p w) as [[[r2 p2] w2] t2].
  - simpl. unfold bind.
    destruct (body a p w) as [[[[u|e|] pa] wa] ta]; try reflexivity.
    rewrite IH.
    destruct (forEach body l1 pa wa) as [[[[u1|e1|] p1] w1] t1]; try reflexivity.
    destruct (forEach body l2 p1 w1) as [[[r2 p2] w2] t2].
    now rewrite app_assoc.
Qed.

Lemma bind_run {A B} (m : M A) (k : A -> M B) p w :
  bind m k p w
  = match m p w with
    | (Ok a, p1, w1, t1) =>
        let '(r, p2, w2, t2) := k a p1 w1 in (r, p2, w2, t1 ++ t2)
    | (Err e, p1, w1, t1) => (Err e, p1, w1, t1)
    | (Panic, p1, w1, t1) => (Panic, p1, w1, t1)
    end.
Proof.
  unfold bind. destruct (m p w) as [[[[a|e|] p1] w1] t1]; reflexivity.
Qed.

Lemma explodeIfNeeded_same ms p w :
  CanHandleAliases (encoder p) = true ->
  explodeIfNeeded ms p w = (Ok ms, p, w, []).
Proof.
  intros Hc. unfold explodeIfNeeded. rewrite bind_run. unfold this.
  cbv beta iota. rewrite Hc. reflexivity.
Qed.

Lemma primeFirstTime_primed ms p w :
  ms <> [] -> primeFirstTime ms p w = (Ok tt, primed p ms, w, []).
Proof.
  intros Hne. unfold primeFirstTime, primed. rewrite bind_run. unfold this.
  cbv beta iota. destruct ms as [|m ms]; [congruence|].
  destruct (firstTimePrinting p); reflexivity.
Qed.

Lemma pipeAppendix_none p w :
  appendixReader p = None -> pipeAppendix p w = (Ok tt, p, w, []).
Proof.
  intros Happ. unfold pipeAppendix. rewrite bind_run. unfold this.
  cbv beta iota. rewrite Happ. reflexivity.
Qed.

(** With an encoder that handles aliases and no appendix, a call on a
    sequence that is not empty is the loop, started in the primed state. *)
Lemma PrintResults_loop ms p w :
  CanHandleAliases (encoder p) = true -> appendixReader p = None ->
  ms <> [] ->
  PrintResults ms p w = forEach printLoopBody ms (primed p ms) w.
Proof.
  intros Hc Happ Hne.
  destruct (forEach printLoopBody ms (primed p ms) w)
    as [[[r p1] w1] t1] eqn:Hloop.
  assert (Happ1 : appendixReader p1 = None).
  { apply forEach_turns, turns_keeps in Hloop.
    destruct (primed_keeps p ms) as (_ & _ & Hk & _).
    destruct Hloop as (_ & _ & _ & Hk1 & _). congruence. }
  unfold PrintResults.
  replace (Nat.eqb (length ms) 0) with false
    by (destruct ms; [congruence|reflexivity]).
  rewrite bind_run, explodeIfNeeded_same by assumption. cbv beta iota.
  rewrite bind_run, primeFirstTime_primed by assumption. cbv beta iota.
  rewrite bind_run, Hloop.
  destruct r as [[]|e|]; try reflexivity.
  rewrite pipeAppendix_none by assumption. simpl. now rewrite app_nil_r.
Qed.

(** X8: with an encoder that handles aliases and no appendix registered,
    printing a sequence in two calls is printing it in one. If the call on
    the first part returns no error, the call on the whole sequence makes
    the calls of the first call and then those of the call on the second
    part, and returns what the second call returns, with the printer and
    the collaborators in the same state; if the call on the first part
    fails, the call on the whole sequence fails in the same way after the
    same calls. Separators between the parts are thus the same either
    way. *)
Theorem X8_two_calls_print_as_one ms1 ms2 p w r1 p1 w1 t1 :
  CanHandleAliases (encoder p) = true -> appendixReader p = None ->
  PrintResults ms1 p w = (r1, p1, w1, t1) ->
  PrintResults (ms1 ++ ms2) p w
  = match r1 with
    | Ok _ =>
        let '(r2, p2, w2, t2) := PrintResults ms2 p1 w1 in
        (r2, p2, w2, t1 ++ t2)
    | _ => (r1, p1, w1, t1)
    end.
Proof.
  intros Hc Happ Hrun.
  destruct ms1 as [|m ms1].
  { unfold PrintResults in Hrun at 1. simpl in Hrun. unfold ret in Hrun.
    inversion Hrun; subst. simpl.
    now destruct (PrintResults ms2 p1 w1) as [[[r2 p2] w2] t2]. }
  pose proof (PrintResults_printed _ _ _ _ _ _ _ Hrun) as Hprinted.
  rewrite PrintResults_loop in Hrun by (auto; discriminate).
  rewrite PrintResults_loop by (auto; discriminate).
  change (primed p ((m :: ms1) ++ ms2)) with (primed p (m :: ms1)).
  rewrite forEach_app, Hrun.
  destruct r1 as [[]|e|]; try reflexivity.
  destruct ms2 as [|m2 ms2].
  { unfold PrintResults. simpl. unfold ret. reflexivity. }
  assert (Hcfg : CanHandleAliases (encoder p1) = true /\
                 appendixReader p1 = None /\ firstTimePrinting p1 = false).
  { apply forEach_turns in Hrun.
    destruct (turns_keeps _ _ _ _ _ Hrun) as (Hf & _ & _ & Ha & He & _).
    destruct (primed_keeps p (m :: ms1)) as (_ & _ & Ha' & He').
    rewrite (primed_not_first p (m :: ms1)) in Hf by (intros _; discriminate).
    rewrite He, He', Ha, Ha'. auto. }
  destruct Hcfg as (Hc1 & Happ1 & Hf1).
  rewrite (PrintResults_loop (m2 :: ms2) p1 w1) by (auto; discriminate).
  unfold primed. rewrite Hf1. reflexivity.
Qed.

(** *** Separators *)

(** X9: the number of document separators asked for by a call that
    returns no error. A printer that prints for the first time asks for
    none before the first node, whatever the indices of that node; from
    then on a node gets a separator when its document index is not that of
    the node before it, or when its file index is not that of the first
    node the printer ever walked, unless its leading content starts with
    the separator sentinel. A printer that has printed before goes on from
    its last-seen indices, the first node of the sequence included. *)
Theorem X9_separators_counted ms es p w p' w' t :
  PrintResults ms p w = (Ok tt, p', w', t) -> ms <> [] -> walks p w ms es ->
  separatorCount t
  = if firstTimePrinting p
    then match es with
         | n :: rest => boundaries (GetDocument n) (GetFileIndex n) rest
         | [] => 0
         end
    else boundaries (previousDocIndex p) (previousFileIndex p) es.
Proof.
  intros Hrun Hne Hw.
  rewrite (PrintResults_separators _ _ _ _ _ _ _ Hrun Hne Hw).
  unfold primed. destruct es as [|n rest].
  - now destruct (firstTimePrinting p).
  - destruct (firstTimePrinting p); [|reflexivity].
    apply boundaries_first_node.
Qed.

(** X10: as long as the file index does not change, the separators asked
    for are the transitions of the document index: for a printer that
    prints for the first time and a sequence whose nodes all have the file
    index of its first node, and for a printer that has printed before and
    a sequence whose nodes all have its last-seen file index, the count is
    the one the specification gives. *)
Theorem X10_one_file_separators ms es p w p' w' t :
  PrintResults ms p w = (Ok tt, p', w', t) -> ms <> [] -> walks p w ms es ->
  (firstTimePrinting p = true ->
   (forall n m, hd_error es = Some n -> In m es ->
                GetFileIndex m = GetFileIndex n) ->
   separatorCount t = specifiedSeparators es) /\
  (firstTimePrinting p = false ->
   (forall m, In m es -> GetFileIndex m = previousFileIndex p) ->
   separatorCount t
   = transitions (previousDocIndex p) (previousFileIndex p) es).
Proof.
  intros Hrun Hne Hw.
  rewrite (PrintResults_separators _ _ _ _ _ _ _ Hrun Hne Hw).
  unfold primed. split; intros Hf Hfile; rewrite Hf.
  - destruct es as [|n rest]; [reflexivity|].
    simpl previousDocIndex. simpl previousFileIndex.
    rewrite boundaries_first_node. unfold specifiedSeparators.
    apply boundaries_one_file. intros m Hm.
    apply (Hfile n m); [reflexivity|now right].
  - destruct es as [|n rest]; [reflexivity|].
    now apply boundaries_one_file.
Qed.

(** *** The order of the nodes *)

Lemma turns_in_order ms p r p' t :
  turns ms p r p' t ->
  exists rest,
    ms = encodedNodes t ++ rest /\ (r = Ok tt -> rest = []) /\
    (routedNodes t = encodedNodes t \/
     exists n rest', rest = n :: rest' /\
                     routedNodes t = encodedNodes t ++ [n]).
Proof.
  induction 1 as [p|n ms p p1 t1 r p' t2 Ht _ IH|n ms p r p' t Ht Hr].
  - exists []. auto.
  - destruct IH as (rest & -> & Hrest & Hrouted). exists rest.
    rewrite routedNodes_app, encodedNodes_app,
      (turn_routed _ _ _ _ _ Ht), (turn_ok_encoded _ _ _ _ Ht).
    simpl. repeat split; auto.
    destruct Hrouted as [->|(m & rest' & -> & ->)]; eauto.
  - rewrite (turn_routed _ _ _ _ _ Ht).
    destruct (turn_encoded _ _ _ _ _ Ht) as [(-> & _ & _)|[-> _]].
    + exists (n :: ms). repeat split; [congruence|]. right. eauto.
    + exists ms. repeat split; [congruence|]. now left.
Qed.

(** X11: the nodes are taken in the order of the sequence walked, none is
    left out and none comes twice: the nodes handed to the encoder are the
    front of the sequence, and all of it when the call returns no error;
    the nodes for which a sink was asked are the same nodes, with at most
    the next node of the sequence in addition, when the call failed
    between asking for its sink and encoding it. *)
Theorem X11_nodes_in_order ms es p w r p' w' t :
  PrintResults ms p w = (r, p', w', t) -> ms <> [] -> walks p w ms es ->
  exists rest,
    es = encodedNodes t ++ rest /\ (r = Ok tt -> rest = []) /\
    (routedNodes t = encodedNodes t \/
     exists n rest', rest = n :: rest' /\
                     routedNodes t = encodedNodes t ++ [n]).
Proof.
  intros Hrun Hne Hw. apply PrintResults_printed in Hrun.
  destruct (explodeLog_log p ms es) as (Hrouted & Hencoded & _).
  destruct Hrun as [?|e w1 ? Hc Hex|w1 ? Hc Hex|w1 ? Hc Hex ?
                   |es' r p' t ? Hw' ? Hts Hr|es' p1 t r t' ? Hw' ? Hts Happ];
    try congruence;
    try (inversion Hw; congruence).
  - inversion Hw; subst; try congruence.
    assert (es = []) by congruence. subst. exists []. simpl. auto.
  - rewrite (walks_functional _ _ _ _ _ Hw' Hw) in *.
    rewrite routedNodes_app, encodedNodes_app, Hrouted, Hencoded. simpl.
    eapply turns_in_order; eauto.
  - rewrite (walks_functional _ _ _ _ _ Hw' Hw) in *.
    apply appendixRun_log in Happ. destruct Happ as (Hr1 & He1 & _).
    rewrite !routedNodes_app, !encodedNodes_app, Hrouted, Hencoded, Hr1, He1.
    simpl. rewrite !app_nil_r.
    destruct (turns_in_order _ _ _ _ _ Hts) as (rest & E & Hrest & Hord).
    rewrite (Hrest eq_refl) in *. exists []. repeat split; auto.
Qed.

(** *** The place of the appendix *)

Lemma split_at_first {A} (mark : A -> bool) a b t0 c t2 :
  existsb mark a = false -> mark c = true ->
  a ++ b = t0 ++ c :: t2 ->
  exists t0', t0 = a ++ t0' /\ b = t0' ++ c :: t2.
Proof.
  revert t0. induction a as [|x a IH]; intros t0 Hnone Hc E.
  - exists t0. auto.
  - simpl in Hnone. apply orb_false_elim in Hnone. destruct Hnone as [Hx Ha].
    destruct t0 as [|y t0]; simpl in E; inversion E; subst; [congruence|].
    destruct (IH t0 Ha Hc H2) as (t0' & -> & ->). exists t0'. auto.
Qed.

Lemma copy_in_log t0 (c : event) t2 :
  isCopy c = true -> existsb isCopy (t0 ++ c :: t2) = true.
Proof.
  intros Hc. rewrite existsb_app. simpl. rewrite Hc. apply orb_true_r.
Qed.

Lemma turn_no_copy n p r p' t : turn n p r p' t -> existsb isCopy t = false.
Proof. destruct 1; open_turn_log; reflexivity. Qed.

Lemma turns_no_copy ms p r p' t :
  turns ms p r p' t -> existsb isCopy t = false.
Proof.
  induction 1 as [p|n ms p p1 t1 r p' t2 Ht _ IH|n ms p r p' t Ht _];
    [reflexivity| |now apply turn_no_copy in Ht].
  rewrite existsb_app, IH. now rewrite (turn_no_copy _ _ _ _ _ Ht).
Qed.

Lemma explodeLog_no_copy p ms es : existsb isCopy (explodeLog p ms es) = false.
Proof. unfold explodeLog. now destruct (CanHandleAliases (encoder p)). Qed.

(** X12: [io.Copy] is called on an appendix once at most in a call of
    [PrintResults], on the reader that is registered, into the sink that
    was obtained for the nil node just before; and when it is called, every
    node of the sequence walked has been encoded and flushed, no call
    before it has failed, and nothing follows it but the flush of that
    sink. The appendix is thus never piped by a call that failed at a node,
    nor ahead of a node. *)
Theorem X12_appendix_comes_last ms es p w r p' w' t t0 writer reader data err t2 :
  PrintResults ms p w = (r, p', w', t) -> walks p w ms es ->
  t = t0 ++ EvCopy writer reader data err :: t2 ->
  ms <> [] /\ appendixReader p = Some reader /\
  (exists t00, t0 = t00 ++ [EvGetWriter None (Ok writer)]) /\
  encodedNodes t0 = es /\ clean t0 /\ existsb isCopy t0 = false /\
  match err with
  | None => exists err', t2 = [EvFlush writer err']
  | Some _ => t2 = []
  end.
Proof.
  intros Hrun Hw E. apply PrintResults_printed in Hrun.
  assert (Hcopy : existsb isCopy t = true)
    by (rewrite E; now apply copy_in_log).
  destruct Hrun as [?|? ? ? ? ?|? ? ? ?|? ? ? ? ?|es' r p' t ? Hw' ? Hts Hr
                   |es' p1 t r tail Hne Hw' ? Hts Happ];
    try discriminate.
  - rewrite existsb_app, explodeLog_no_copy, (turns_no_copy _ _ _ _ _ Hts)
      in Hcopy. discriminate.
  - rewrite (walks_functional _ _ _ _ _ Hw' Hw) in *. clear Hw'.
    assert (Hnone : existsb isCopy (explodeLog p ms es ++ t) = false).
    { now rewrite existsb_app, explodeLog_no_copy, (turns_no_copy _ _ _ _ _ Hts). }
    rewrite app_assoc in E.
    destruct (split_at_first isCopy _ _ _ (EvCopy writer reader data err) _
                Hnone eq_refl E) as (t0' & -> & Etail).
    assert (Hreader : appendixReader p1 = appendixReader p).
    { destruct (turns_config _ _ _ _ _ Hts) as (_ & _ & _ & Hk & _).
      destruct (primed_config p es) as (_ & _ & _ & Hk' & _). congruence. }
    assert (Hencoded : encodedNodes (explodeLog p ms es ++ t) = es).
    { destruct (explodeLog_log p ms es) as (_ & He & _).
      rewrite encodedNodes_app, He. simpl.
      destruct (turns_encoded _ _ _ _ _ Hts) as (rest & Ees & Hrest).
      rewrite (Hrest eq_refl), app_nil_r in Ees. congruence. }
    assert (Hclean : clean (explodeLog p ms es ++ t)).
    { apply clean_app. split; [apply explodeLog_clean|].
      apply turns_accounted in Hts.
      destruct Hts as [[_ Hc]|[(Hr & _)|(Hr & _)]];
        [assumption|congruence|discriminate]. }
    split; [assumption|].
    destruct Happ as [?|? ? ?|? ?|rd wr dt e Hrd|rd wr dt err' Hrd];
      destruct t0' as [|x [|y t0']]; simpl in Etail; inversion Etail; subst;
      try (destruct t0'; discriminate).
    + split; [congruence|]. split; [eauto|].
      rewrite encodedNodes_app, Hencoded, existsb_app, Hnone. simpl.
      rewrite app_nil_r. repeat split; auto.
      apply clean_app. split; [assumption|all_clean].
    + split; [congruence|]. split; [eauto|].
      rewrite encodedNodes_app, Hencoded, existsb_app, Hnone. simpl.
      rewrite app_nil_r. repeat split; eauto.
      apply clean_app. split; [assumption|all_clean].
    + exfalso. destruct t0' as [|z [|z' t0']]; discriminate.
Qed.

End MorePrinterFacts.

(** *** Reading NUL-separated output back *)

Section ReadingBack.
Context `{Externals}.

Lemma nulRecords_record acc r rest :
  hasNul r = false ->
  nulRecords acc (r ++ x00 :: rest) = (rev acc ++ r) :: nulRecords [] rest.
Proof.
  revert acc. induction r as [|x r IH]; intros acc Hfree.
  - simpl. now rewrite app_nil_r.
  - unfold hasNul in Hfree. simpl in Hfree.
    apply orb_false_elim in Hfree. destruct Hfree as [Hx Hr].
    simpl. assert (Hx' : Byte.eqb x x00 = false).
    { destruct (Byte.eqb x x00) eqn:E; [|reflexivity].
      apply Byte.byte_dec_bl in E. subst x. discriminate. }
    rewrite Hx', IH by exact Hr. simpl. now rewrite <- app_assoc.
Qed.

Lemma nulRecords_frames fs :
  Forall (fun f => hasNul (frameRecord f) = false) fs ->
  Forall (fun f => hasNul (separatorBytes f) = false) fs ->
  nulRecords [] (flat_map frameBytes fs)
  = map (fun f => separatorBytes f ++ frameRecord f) fs.
Proof.
  induction fs as [|f fs IH]; intros Hrec Hsep; [reflexivity|].
  inversion Hrec as [|? ? Hr1 Hrs]; inversion Hsep as [|? ? Hs1 Hss]; subst.
  change (flat_map frameBytes (f :: fs))
    with (frameBytes f ++ flat_map frameBytes fs).
  unfold frameBytes at 1. fold (separatorBytes f).
  rewrite <- !app_assoc. simpl app.
  rewrite app_assoc, nulRecords_record.
  - simpl. now rewrite IH.
  - unfold hasNul in *. rewrite existsb_app. now rewrite Hs1, Hr1.
Qed.

Lemma all_sinks_frames fs :
  flat_map (fun f : frame => if (fun _ : Writer => true) (fWriter f)
                             then frameBytes f else []) fs
  = flat_map frameBytes fs.
Proof. reflexivity. Qed.

Lemma frames_separators fs :
  forallb (fun ev =>
             match ev with
             | EvPrintDocumentSeparator _ out _ => negb (hasNul out)
             | _ => true
             end) (flat_map frameLog fs) = true ->
  Forall (fun f => hasNul (separatorBytes f) = false) fs.
Proof.
  induction fs as [|f fs IH]; intros Hall; [constructor|].
  change (flat_map frameLog (f :: fs)) with (frameLog f ++ flat_map frameLog fs)
    in Hall.
  rewrite forallb_app in Hall. apply andb_prop in Hall.
  destruct Hall as [Hf Hrest]. constructor; [|now apply IH].
  unfold frameLog, separatorLog, separatorBytes in *.
  destruct (fSeparator f) as [out|]; [|reflexivity].
  simpl in Hf. rewrite andb_true_r in Hf.
  now destruct (hasNul out).
Qed.

(** X13: NUL-separated output reads back. In NUL-separated mode, with no
    appendix, after a call that returned no error: if the document
    separators the encoder wrote hold no 0x00 byte, then cutting what the
    sinks received at every 0x00 byte gives one record for each node of the
    sequence walked, in order, and each is the bytes of the separator
    written before the node, if any, followed by the node's record (its
    buffered leading content and encoding less one trailing line
    terminator); nothing is left over after the last 0x00. *)
Theorem X13_nul_output_reads_back ms es p w p' w' t :
  nulSepOutput p = true -> appendixReader p = None ->
  ms <> [] -> walks p w ms es ->
  PrintResults ms p w = (Ok tt, p', w', t) ->
  separatorsNulFree t = true ->
  exists fs,
    map fNode fs = es /\
    t = explodeLog p ms es ++ flat_map frameLog fs /\
    nulRecords [] (output (fun _ => true) t)
    = map (fun f => separatorBytes f ++ frameRecord f) fs /\
    output (fun _ => true) t
    = flat_map (fun r => r ++ [x00])
        (map (fun f => separatorBytes f ++ frameRecord f) fs).
Proof.
  intros Hnul Happ Hne Hw Hrun Hseps. apply PrintResults_printed in Hrun.
  inversion Hrun as [?|? ? ? ? ?|? ? ? ?|? ? ? ? ?|es' r' p'' t' ? Hw' ? Hts Hr
                    |es' p1 t1 r' tail ? Hw' ? Hts Happrun]; subst;
    try congruence.
  assert (Ees : es' = es) by (eapply walks_functional; eauto). subst es'.
  assert (Hnul' : nulSepOutput (primed p es) = true).
  { destruct (primed_keeps p es) as (_ & -> & _). assumption. }
  assert (Happ' : appendixReader p' = None).
  { apply turns_keeps in Hts. destruct (primed_keeps p es) as (_ & _ & Hk & _).
    intuition congruence. }
  destruct (turns_nul_frames _ _ _ _ Hts Hnul') as (fs & Hms & -> & Hfree & _).
  destruct (explodeLog_log p ms es) as (_ & _ & _ & Hout).
  assert (Hfs : Forall (fun f => hasNul (separatorBytes f) = false) fs).
  { unfold separatorsNulFree in Hseps. rewrite !forallb_app in Hseps.
    apply andb_prop in Hseps. destruct Hseps as [_ Hseps].
    apply andb_prop in Hseps. destruct Hseps as [Hseps _].
    now apply frames_separators. }
  inversion Happrun; subst; try congruence.
  exists fs. rewrite app_nil_r. repeat split; auto.
  - rewrite output_app, Hout, output_frames. simpl app.
    rewrite all_sinks_frames. now apply nulRecords_frames.
  - rewrite output_app, Hout, output_frames. simpl app.
    rewrite all_sinks_frames, flat_map_concat_map, flat_map_concat_map, map_map.
    f_equal. apply map_ext. intros f. unfold frameBytes, separatorBytes.
    now rewrite app_assoc.
Qed.

(** *** One mode for the whole call *)

Lemma turn_one_mode n p r p' t :
  turn n p r p' t ->
  if nulSepOutput p
  then existsb encodesOnSink t = false
  else existsb onBuffer t = false /\ existsb isWrite t = false.
Proof.
  destruct 1;
    unfold encodingLog, separatorLog, recordLog, destinationOf;
    repeat match goal with
      | sep : option (list byte) |- _ => destruct sep
      end;
    destruct (nulSepOutput p); try discriminate; simpl; auto.
Qed.

Lemma turns_one_mode ms p r p' t :
  turns ms p r p' t ->
  if nulSepOutput p
  then existsb encodesOnSink t = false
  else existsb onBuffer t = false /\ existsb isWrite t = false.
Proof.
  induction 1 as [p|n ms p p1 t1 r p' t2 Ht _ IH|n ms p r p' t Ht _].
  - destruct (nulSepOutput p); simpl; auto.
  - pose proof (turn_one_mode _ _ _ _ _ Ht) as H1.
    apply turn_keeps in Ht. destruct Ht as (_ & _ & Hk & _).
    rewrite Hk in IH. rewrite !existsb_app.
    destruct (nulSepOutput p).
    + now rewrite H1, IH.
    + destruct H1 as [-> ->], IH as [-> ->]. auto.
  - eapply turn_one_mode; eauto.
Qed.

(** X14: the mode holds for the whole call, whatever it returns. With
    NUL-separated mode on, the encoder is never given a sink for leading
    content or for a node: these reach a sink through the printer's own
    writes only. With the mode off, the encoder is never given the buffer,
    and the printer never calls [Write] on a sink. *)
Theorem X14_one_mode_per_call ms p w r p' w' t :
  PrintResults ms p w = (r, p', w', t) ->
  (nulSepOutput p = true -> existsb encodesOnSink t = false) /\
  (nulSepOutput p = false ->
   existsb onBuffer t = false /\ existsb isWrite t = false).
Proof.
  intros Hrun. apply PrintResults_printed in Hrun.
  assert (Hex : forall es, existsb encodesOnSink (explodeLog p ms es) = false /\
                           existsb onBuffer (explodeLog p ms es) = false /\
                           existsb isWrite (explodeLog p ms es) = false).
  { intros es. unfold explodeLog.
    destruct (CanHandleAliases (encoder p)); simpl; auto. }
  assert (Happ : forall q r' t', appendixRun q r' t' ->
                   existsb encodesOnSink t' = false /\
                   existsb onBuffer t' = false /\ existsb isWrite t' = false).
  { intros q r' t' []; simpl; auto. }
  destruct Hrun as [?|? ? ? ? ?|? ? ? ?|? ? ? ? ?|es r p' t ? Hw Hfront Hts ?
                   |es p1 t r t' ? Hw Hfront Hts Happrun];
    try (simpl; auto; fail).
  - apply turns_one_mode in Hts.
    destruct (primed_keeps p es) as (_ & Hk & _). rewrite Hk in Hts.
    destruct (Hex es) as (E1 & E2 & E3). rewrite !existsb_app, E1, E2, E3.
    split; intros Hn; rewrite Hn in Hts; simpl; auto.
  - apply turns_one_mode in Hts.
    destruct (primed_keeps p es) as (_ & Hk & _). rewrite Hk in Hts.
    destruct (Hex es) as (E1 & E2 & E3).
    destruct (Happ _ _ _ Happrun) as (A1 & A2 & A3).
    rewrite !existsb_app, E1, E2, E3, A1, A2, A3.
    split; intros Hn; rewrite Hn in Hts; simpl.
    + now rewrite Hts.
    + destruct Hts as [-> ->]. auto.
Qed.

End ReadingBack.

(** *** The further properties on the sample *)

Section MoreSampleRuns.
Import Sample.

Lemma X4_settings_kept_witness :
  (encoder (printerOf runTwoDocumentsNul) = encoder nulPrinter /\
   printerWriter (printerOf runTwoDocumentsNul) = printerWriter nulPrinter /\
   treeNavigator (printerOf runTwoDocumentsNul) = treeNavigator nulPrinter /\
   appendixReader (printerOf runTwoDocumentsNul) = appendixReader nulPrinter /\
   nulSepOutput (printerOf runTwoDocumentsNul) = nulSepOutput nulPrinter) /\
  (printerOf runExplodeFails = failingPrinter /\
   routedNodes (logOf runExplodeFails) = [] /\
   encodedNodes (logOf runExplodeFails) = []).
Proof.
  split.
  - apply (proj1 (@X4_settings_kept externals twoDocuments nulPrinter tt
                    (resultOf runTwoDocumentsNul) (printerOf runTwoDocumentsNul)
                    (worldOf runTwoDocumentsNul) (logOf runTwoDocumentsNul)
                    eq_refl)).
  - apply (proj2 (@X4_settings_kept externals [scalar "*ref" 0 0]
                    failingPrinter tt
                    (resultOf runExplodeFails) (printerOf runExplodeFails)
                    (worldOf runExplodeFails) (logOf runExplodeFails)
                    eq_refl)).
    reflexivity.
Defined.

Lemma X5_plain_stream_witness :
  exists fs tail,
    map fNode fs = twoDocuments /\
    logOf runTwoDocuments
    = explodeLog (newPrinter (lineEncoder true)) twoDocuments twoDocuments
      ++ flat_map plainLog fs ++ tail /\
    appendixRun (printerOf runTwoDocuments) (Ok tt) tail /\
    existsb isWrite (logOf runTwoDocuments) = false /\
    separatorsAtBoundaries 0 0 fs = true /\
    forall sel,
      output sel (logOf runTwoDocuments)
      = flat_map (fun f => if sel (fWriter f) then plainBytes f else []) fs
        ++ output sel tail.
Proof.
  apply (@X5_plain_stream externals twoDocuments twoDocuments
           (newPrinter (lineEncoder true)) tt
           (printerOf runTwoDocuments) (worldOf runTwoDocuments)
           (logOf runTwoDocuments)).
  - reflexivity.
  - discriminate.
  - apply walks_same. reflexivity.
  - reflexivity.
Defined.

Lemma X6_first_failure_is_returned_witness :
  (accountedFor false (Err "no sink") (logOf runNoSink) \/
   (resultOf runNoSink = Panic /\ firstTimePrinting noSinkPrinter = true /\
    CanHandleAliases (encoder noSinkPrinter) = false /\
    logOf runNoSink = [EvExplode twoDocuments (Ok [])])) /\
  (accountedFor true (Err nulCharError) (logOf runNulNode) \/
   (resultOf runNulNode = Panic /\ firstTimePrinting nulPrinter = true /\
    CanHandleAliases (encoder nulPrinter) = false /\
    logOf runNulNode = [EvExplode [nulNode] (Ok [])])).
Proof.
  split.
  - apply (@X6_first_failure_is_returned externals twoDocuments noSinkPrinter tt
             (resultOf runNoSink) (printerOf runNoSink) (worldOf runNoSink)
             (logOf runNoSink)).
    reflexivity.
  - apply (@X6_first_failure_is_returned externals [nulNode] nulPrinter tt
             (resultOf runNulNode) (printerOf runNulNode) (worldOf runNulNode)
             (logOf runNulNode)).
    reflexivity.
Defined.

Lemma X7_one_sink_at_a_time_witness :
  exists held,
    disciplined None (logOf runWithAppendix) held /\
    (resultOf runWithAppendix = Ok tt -> held = None).
Proof.
  apply (@X7_one_sink_at_a_time externals [scalar "a" 0 0] appendixPrinter tt
           (resultOf runWithAppendix) (printerOf runWithAppendix)
           (worldOf runWithAppendix) (logOf runWithAppendix)).
  reflexivity.
Defined.

Lemma X8_two_calls_print_as_one_witness :
  PrintResults ([scalar "a" 0 0] ++ [scalar "b" 1 0])
    (newPrinter (lineEncoder true)) tt
  = (resultOf runSecondBatch, printerOf runSecondBatch, worldOf runSecondBatch,
     logOf runFirstBatch ++ logOf runSecondBatch).
Proof.
  exact (@X8_two_calls_print_as_one externals
           [scalar "a" 0 0] [scalar "b" 1 0]
           (newPrinter (lineEncoder true)) tt
           (resultOf runFirstBatch) (printerOf runFirstBatch)
           (worldOf runFirstBatch) (logOf runFirstBatch)
           eq_refl eq_refl eq_refl).
Defined.

Lemma X9_separators_counted_witness :
  separatorCount (logOf runThreeNodes) = 1 /\
  separatorCount (logOf runSecondBatch) = 1.
Proof.
  split.
  - apply (@X9_separators_counted externals threeNodes threeNodes
             (newPrinter (lineEncoder true)) tt
             (printerOf runThreeNodes) (worldOf runThreeNodes)
             (logOf runThreeNodes)).
    + reflexivity.
    + discriminate.
    + apply walks_same. reflexivity.
  - apply (@X9_separators_counted externals [scalar "b" 1 0] [scalar "b" 1 0]
             (printerOf runFirstBatch) (worldOf runFirstBatch)
             (printerOf runSecondBatch) (worldOf runSecondBatch)
             (logOf runSecondBatch)).
    + reflexivity.
    + discriminate.
    + apply walks_same. reflexivity.
Defined.

Lemma X10_one_file_separators_witness :
  separatorCount (logOf runThreeNodes) = specifiedSeparators threeNodes /\
  separatorCount (logOf runSecondBatch)
  = transitions 0 0 [scalar "b" 1 0].
Proof.
  split.
  - destruct (@X10_one_file_separators externals threeNodes threeNodes
                (newPrinter (lineEncoder true)) tt
                (printerOf runThreeNodes) (worldOf runThreeNodes)
                (logOf runThreeNodes)) as [Hfirst _].
    + reflexivity.
    + discriminate.
    + apply walks_same. reflexivity.
    + apply Hfirst.
      * reflexivity.
      * intros n m Hn Hm. inversion Hn; subst n.
        destruct Hm as [<-|[<-|[<-|[]]]]; reflexivity.
  - destruct (@X10_one_file_separators externals
                [scalar "b" 1 0] [scalar "b" 1 0]
                (printerOf runFirstBatch) (worldOf runFirstBatch)
                (printerOf runSecondBatch) (worldOf runSecondBatch)
                (logOf runSecondBatch)) as [_ Hlater].
    + reflexivity.
    + discriminate.
    + apply walks_same. reflexivity.
    + apply Hlater.
      * reflexivity.
      * intros m [<-|[]]. reflexivity.
Defined.

Lemma X11_nodes_in_order_witness :
  exists rest,
    twoDocuments = encodedNodes (logOf runNoSink) ++ rest /\
    (resultOf runNoSink = Ok tt -> rest = []) /\
    (routedNodes (logOf runNoSink) = encodedNodes (logOf runNoSink) \/
     exists n rest', rest = n :: rest' /\
                     routedNodes (logOf runNoSink)
                     = encodedNodes (logOf runNoSink) ++ [n]).
Proof.
  apply (@X11_nodes_in_order externals twoDocuments twoDocuments
           noSinkPrinter tt
           (resultOf runNoSink) (printerOf runNoSink) (worldOf runNoSink)
           (logOf runNoSink)).
  - reflexivity.
  - discriminate.
  - apply walks_same. reflexivity.
Defined.

Lemma X12_appendix_comes_last_witness :
  [scalar "a" 0 0] <> [] /\
  appendixReader appendixPrinter = Some appendixBytes /\
  (exists t00, firstn 5 (logOf runWithAppendix)
               = t00 ++ [EvGetWriter None (Ok 0)]) /\
  encodedNodes (firstn 5 (logOf runWithAppendix)) = [scalar "a" 0 0] /\
  clean (firstn 5 (logOf runWithAppendix)) /\
  existsb isCopy (firstn 5 (logOf runWithAppendix)) = false /\
  exists err', [@EvFlush externals 0 None] = [EvFlush 0 err'].
Proof.
  apply (@X12_appendix_comes_last externals
           [scalar "a" 0 0] [scalar "a" 0 0] appendixPrinter tt
           (resultOf runWithAppendix) (printerOf runWithAppendix)
           (worldOf runWithAppendix) (logOf runWithAppendix)
           (firstn 5 (logOf runWithAppendix)) 0 appendixBytes appendixBytes
           None [@EvFlush externals 0 None]).
  - reflexivity.
  - apply walks_same. reflexivity.
  - reflexivity.
Defined.

Lemma X13_nul_output_reads_back_witness :
  exists fs,
    map fNode fs = twoDocuments /\
    logOf runTwoDocumentsNul
    = explodeLog nulPrinter twoDocuments twoDocuments ++ flat_map frameLog fs /\
    nulRecords [] (output (fun _ => true) (logOf runTwoDocumentsNul))
    = map (fun f => separatorBytes f ++ frameRecord f) fs /\
    output (fun _ => true) (logOf runTwoDocumentsNul)
    = flat_map (fun r => r ++ [x00])
        (map (fun f => separatorBytes f ++ frameRecord f) fs).
Proof.
  apply (@X13_nul_output_reads_back externals twoDocuments twoDocuments
           nulPrinter tt
           (printerOf runTwoDocumentsNul) (worldOf runTwoDocumentsNul)
           (logOf runTwoDocumentsNul)).
  - reflexivity.
  - reflexivity.
  - discriminate.
  - apply walks_same. reflexivity.
  - reflexivity.
  - reflexivity.
Defined.

Lemma X14_one_mode_per_call_witness :
  existsb encodesOnSink (logOf runTwoDocumentsNul) = false /\
  (existsb onBuffer (logOf runTwoDocuments) = false /\
   existsb isWrite (logOf runTwoDocuments) = false).
Proof.
  split.
  - apply (proj1 (@X14_one_mode_per_call externals twoDocuments nulPrinter tt
                    (resultOf runTwoDocumentsNul) (printerOf runTwoDocumentsNul)
                    (worldOf runTwoDocumentsNul) (logOf runTwoDocumentsNul)
                    eq_refl)).
    reflexivity.
  - apply (proj2 (@X14_one_mode_per_call externals twoDocuments
                    (newPrinter (lineEncoder true)) tt
                    (resultOf runTwoDocuments) (printerOf runTwoDocuments)
                    (worldOf runTwoDocuments) (logOf runTwoDocuments)
                    eq_refl)).
    reflexivity.
Defined.

End MoreSampleRuns.
